(** * term-heval: the command-line driver of the hold'em equity calculator

    A shallow embedding of [term-heval.cpp].  The driver parses its options,
    validates them, hands the request to OMPEval's [EquityCalculator] and
    prints the result.  Everything the driver calls but does not define
    (getopt, [std::stod], number formatting, [round], OMPEval's [CardRange]
    and [EquityCalculator]) is a field of the record [Platform]; the driver's
    own functions are translated statement by statement over it. *)

From Stdlib Require Import ZArith List String Ascii Bool Lia.
From Stdlib Require Import Decimal DecimalString.
From Corelib Require Import SpecFloat.
Import ListNotations.
Open Scope string_scope.
Open Scope Z_scope.

(** ** Machine data *)

(** [uint64_t]: the card masks; only compared with 0 and printed here. *)
Definition uint64 := Z.

(** [double]: IEEE binary64 values (prec = 53, emax = 1024). *)
Definition double := spec_float.

Definition d_zero : double := S754_zero false.
Definition d_one : double := S754_finite false 4503599627370496 (-52).

(** [int -> double] conversion of a literal. *)
Definition d_of_Z (n : Z) : double := binary_normalize 53 1024 n 0 false.

Definition d_mul : double -> double -> double := SFmul 53 1024.
Definition d_div : double -> double -> double := SFdiv 53 1024.

(** [x == y] and [x >= y] on doubles. *)
Definition d_eq (x y : double) : bool := SFeqb x y.
Definition d_ge (x y : double) : bool := SFleb y x.

(** [<cstdlib>] *)
Definition EXIT_SUCCESS : Z := 0.
Definition EXIT_FAILURE : Z := 1.

(** [std::to_string] on the integral types the driver prints. *)
Definition to_string_nat (n : nat) : string :=
  NilEmpty.string_of_uint (Nat.to_uint n).

Definition to_string_uint64 (n : uint64) : string :=
  NilEmpty.string_of_uint (N.to_uint (Z.to_N n)).

(** [to_string(bool)]: the argument is promoted to [int]. *)
Definition to_string_bool (b : bool) : string := if b then "1" else "0".

(** ** What the driver sees of OMPEval *)

(** A hand range.  The driver only asks whether [combinations()] is empty;
    a combination is a two-card set, kept as its card mask. *)
Record CardRange := { combinations : list uint64 }.

(** [EquityCalculator::Results], the fields the driver reads. *)
Record Results := {
  players : nat;
  equity : nat -> double;
  progress : double;
  stdev : double;
  time : double;
  enumerateAll : bool
}.

(** The calls the driver makes on its [EquityCalculator eq]. *)
Inductive EqCall :=
| SetTimeLimit (t : double)
| Start (handRanges : list CardRange) (boardCards deadCards : uint64)
        (flag : bool) (stdevTarget : double)
| Wait.

(** The outcome of [std::stod]: a value, or one of the two exceptions the
    driver catches. *)
Inductive stod_result :=
| StodValue (d : double)
| StodOutOfRange
| StodInvalidArgument.

(** The libraries under the driver.  [getopt_scan argv] is the whole
    [while ((c = getopt_long(...)) != -1)] iteration for the driver's option
    table: the option characters returned, each with its [optarg], in order,
    and [argv[optind..argc)] once getopt has returned -1 (what getopt itself
    writes on stderr for an unknown option is not the driver's and is left
    out).  [to_string_double] is [std::to_string(double)], [show_double] is
    [operator<<] on a double.  [getResults] reads the calculator, whose
    state is the calls made on it so far (oldest first). *)
Record Platform := {
  getopt_scan : list string -> list (ascii * string) * list string;
  stod : string -> stod_result;
  to_string_double : double -> string;
  show_double : double -> string;
  round : double -> double;
  mkCardRange : string -> CardRange;
  getCardMask : string -> uint64;
  getResults : list EqCall -> Results
}.

(** ** The process: its state and the ways it can end *)

(** [debug] is the global flag; [cout] and [cerr] are the lines written so
    far; [eq_calls] is the call history of the calculator [eq]. *)
Record World := {
  debug : bool;
  cout : list string;
  cerr : list string;
  eq_calls : list EqCall
}.

Definition initial_world : World :=
  {| debug := false; cout := []; cerr := []; eq_calls := [] |}.

(** A computation returns, or the process ends in [exit(status)], or it is
    aborted (a failed [assert], which the driver compiles in, or an uncaught
    exception). *)
Inductive Outcome (A : Type) :=
| Ret (a : A) (w : World)
| Exited (status : Z) (w : World)
| Aborted (w : World).
Arguments Ret {A}.
Arguments Exited {A}.
Arguments Aborted {A}.

Definition M (A : Type) := World -> Outcome A.

Definition ret {A} (a : A) : M A := fun w => Ret a w.

Definition bind {A B} (m : M A) (k : A -> M B) : M B :=
  fun w =>
    match m w with
    | Ret a w' => k a w'
    | Exited s w' => Exited s w'
    | Aborted w' => Aborted w'
    end.

Declare Scope prog_scope.
Delimit Scope prog_scope with prog.
Notation "x <- m ;; k" := (bind m (fun x => k))
  (at level 61, m at next level, right associativity) : prog_scope.
Notation "m ;; k" := (bind m (fun _ => k))
  (at level 61, right associativity) : prog_scope.
Open Scope prog_scope.

Definition exit {A} (status : Z) : M A := fun w => Exited status w.
Definition terminate {A} : M A := fun w => Aborted w.

Definition put_cout (line : string) : M unit :=
  fun w => Ret tt {| debug := debug w; cout := cout w ++ [line];
                     cerr := cerr w; eq_calls := eq_calls w |}.

Definition put_cerr (line : string) : M unit :=
  fun w => Ret tt {| debug := debug w; cout := cout w;
                     cerr := cerr w ++ [line]; eq_calls := eq_calls w |}.

Definition set_debug (b : bool) : M unit :=
  fun w => Ret tt {| debug := b; cout := cout w; cerr := cerr w; eq_calls := eq_calls w |}.

Definition eq_call (c : EqCall) : M unit :=
  fun w => Ret tt {| debug := debug w; cout := cout w; cerr := cerr w;
                     eq_calls := eq_calls w ++ [c] |}.

(** A statement guarded by [if (b)]. *)
Definition when (b : bool) (m : M unit) : M unit :=
  if b then m else ret tt.

(** [assert(b)]: a false [b] aborts the process.  The line the C library
    writes on stderr for it is not the driver's and is left out, like
    getopt's. *)
Definition c_assert (b : bool) : M unit :=
  if b then ret tt else terminate.

Fixpoint for_each {A} (l : list A) (body : A -> M unit) : M unit :=
  match l with
  | [] => ret tt
  | x :: l' => body x ;; for_each l' body
  end.

(** ** The driver *)

Section Driver.

Context (P : Platform).

(** [void fail_prog(string err_report, int status = EXIT_FAILURE)] *)
Definition fail_prog (err_report : string) (status : Z) : M unit :=
  put_cerr ("term-heval: error: " ++ err_report ++ ".") ;;
  exit status.

(** [void debug_print(string debug_check)] *)
Definition debug_print (debug_check : string) : M unit :=
  fun w => if negb (debug w) then Ret tt w else put_cerr debug_check w.

(** The [for] loop of [get_ranges_from_argv]; [ranges] is the vector built
    so far. *)
Fixpoint ranges_loop (strs : list string) (ranges : list CardRange)
  : M (list CardRange) :=
  match strs with
  | [] => ret ranges
  | i :: rest =>
      let cr := mkCardRange P i in
      when (match combinations cr with [] => true | _ => false end)
           (fail_prog ("range " ++ i ++ " invalid") EXIT_FAILURE) ;;
      debug_print ("Range added: " ++ i) ;;
      ranges_loop rest (ranges ++ [cr])
  end.

(** [vector<CardRange> get_ranges_from_argv(const vector<string>&)] *)
Definition get_ranges_from_argv (range_strings : list string)
  : M (list CardRange) :=
  when (Nat.ltb (List.length range_strings) 2)
       (fail_prog "less than 2 hand ranges" EXIT_FAILURE) ;;
  when (Nat.ltb 10 (List.length range_strings))
       (fail_prog "more than 10 hand ranges" EXIT_FAILURE) ;;
  ranges_loop range_strings [].

(** [uint64_t get_cardmask(string cards, bool board = false)] *)
Definition get_cardmask (cards : string) (board : bool) : M uint64 :=
  let bitmask := getCardMask P cards in
  when (bitmask =? 0)
       (if board then fail_prog "invalid board argument" EXIT_FAILURE
        else fail_prog "invalid dead argument" EXIT_FAILURE) ;;
  when (board && Nat.ltb 10 (String.length cards))
       (fail_prog "board has too many cards" EXIT_FAILURE) ;;
  ret bitmask.

(** The option variables of [main]. *)
Record Options := {
  board : uint64;
  dead : uint64;
  monte_carlo : bool;
  err_margin : double;
  time_max : double
}.

(** Their initial values: empty board and dead set, no Monte Carlo,
    [err_margin = 1e-3], [time_max = 30]. *)
Definition default_options : Options :=
  {| board := 0; dead := 0; monte_carlo := false;
     err_margin := S754_finite false 4611686018427388 (-62);
     time_max := d_of_Z 30 |}.

(** [long_options]: name, whether an argument is required, and the option
    character getopt returns for it. *)
Definition long_options : list (string * bool * ascii) :=
  [ ("debug", false, "0"%char);
    ("board", true, "b"%char);
    ("dead", true, "d"%char);
    ("mc", false, "m"%char);
    ("monte-carlo", false, "m"%char);
    ("margin", true, "e"%char);
    ("stderr", true, "e"%char);
    ("time", true, "t"%char);
    ("help", false, "h"%char) ].

(** The [switch (opt_character)] of the option loop, run on one option
    returned by getopt.  A character with no [case] falls through the switch
    untouched. *)
Definition handle_option (opt_character : ascii) (optarg : string)
  (o : Options) : M Options :=
  if Ascii.eqb opt_character "0" then
    set_debug true ;; ret o
  else if Ascii.eqb opt_character "b" then
    b <- get_cardmask optarg true ;;
    ret {| board := b; dead := dead o; monte_carlo := monte_carlo o;
           err_margin := err_margin o; time_max := time_max o |}
  else if Ascii.eqb opt_character "d" then
    d <- get_cardmask optarg false ;;
    ret {| board := board o; dead := d; monte_carlo := monte_carlo o;
           err_margin := err_margin o; time_max := time_max o |}
  else if Ascii.eqb opt_character "m" then
    ret {| board := board o; dead := dead o; monte_carlo := true;
           err_margin := err_margin o; time_max := time_max o |}
  else if Ascii.eqb opt_character "e" then
    match stod P optarg with
    | StodValue v =>
        ret {| board := board o; dead := dead o; monte_carlo := monte_carlo o;
               err_margin := v; time_max := time_max o |}
    | StodOutOfRange =>
        fail_prog "Error margin out of range" EXIT_FAILURE ;; ret o
    | StodInvalidArgument =>
        fail_prog "Invalid error margin argument" EXIT_FAILURE ;; ret o
    end
  else if Ascii.eqb opt_character "t" then
    match stod P optarg with
    | StodValue v =>
        ret {| board := board o; dead := dead o; monte_carlo := monte_carlo o;
               err_margin := err_margin o; time_max := v |}
    | StodOutOfRange =>
        fail_prog "Maximum time out of range (use -t 0 for no time limit)"
                  EXIT_FAILURE ;; ret o
    | StodInvalidArgument =>
        fail_prog "Invalid maximum time argument" EXIT_FAILURE ;; ret o
    end
  else
    ret o.

(** The [while] loop over the options getopt returns. *)
Fixpoint options_loop (hits : list (ascii * string)) (o : Options)
  : M Options :=
  match hits with
  | [] => ret o
  | (c, optarg) :: rest => o' <- handle_option c optarg o ;; options_loop rest o'
  end.

(** "make sure running is non-infinite" *)
Definition check_finite (o : Options) : M unit :=
  when (monte_carlo o && d_eq (err_margin o) d_zero && d_eq (time_max o) d_zero)
       (fail_prog ("infinite simulation queried (set time limit, error margin"
                   ++ " or disable monte-carlo)") EXIT_FAILURE).

(** "setting values & final error checking" and "running equity
    calculator": from the range strings to the calculator's results. *)
Definition run_calculator (o : Options) (range_strs : list string)
  : M Results :=
  ranges <- get_ranges_from_argv range_strs ;;
  eq_call (SetTimeLimit (time_max o)) ;;
  debug_print ("board = " ++ to_string_uint64 (board o)) ;;
  debug_print ("dead = " ++ to_string_uint64 (dead o)) ;;
  debug_print ("monte_carlo = " ++ to_string_bool (monte_carlo o)) ;;
  debug_print ("err_margin = " ++ to_string_double P (err_margin o)) ;;
  eq_call (Start ranges (board o) (dead o) (monte_carlo o) (err_margin o)) ;;
  eq_call Wait ;;
  (fun w => Ret (getResults P (eq_calls w)) w).

(** One line of the equity table; [range_strs.at(i)] throws when [i] is out
    of range, and nothing catches it. *)
Definition print_equity (range_strs : list string) (r : Results) (i : nat)
  : M unit :=
  match nth_error range_strs i with
  | Some s => put_cout (s ++ ": " ++ to_string_double P (equity r i))
  | None => terminate
  end.

(** [bool completed = (r.progress >= 1)] *)
Definition completed (r : Results) : bool := d_ge (progress r) d_one.

(** [round(x * 1000) / 10] and [round(x * 10) / 10] *)
Definition percentage (x : double) : double :=
  d_div (round P (d_mul x (d_of_Z 1000))) (d_of_Z 10).
Definition tenths (x : double) : double :=
  d_div (round P (d_mul x (d_of_Z 10))) (d_of_Z 10).

(** "printing results" *)
Definition print_results (range_strs : list string) (r : Results) : M Z :=
  debug_print ("r.progress = " ++ to_string_double P (progress r)) ;;
  debug_print ("r.stdev = " ++ to_string_double P (stdev r)) ;;
  debug_print ("r.time = " ++ to_string_double P (time r)) ;;
  debug_print "***" ;;
  c_assert (Nat.eqb (List.length range_strs) (players r)) ;;
  put_cout ("Equity between " ++ to_string_nat (players r) ++ " players:") ;;
  for_each (seq 0 (players r)) (print_equity range_strs r) ;;
  debug_print "***" ;;
  let prog_percentage := percentage (progress r) in
  let err_percentage := percentage (stdev r) in
  let calc_time := tenths (time r) in
  debug_print ("completed = " ++ to_string_bool (completed r)) ;;
  debug_print ("prog_percentage = " ++ to_string_double P prog_percentage) ;;
  debug_print ("err_percentage = " ++ to_string_double P err_percentage) ;;
  debug_print ("calc_time = " ++ to_string_double P calc_time) ;;
  debug_print "***" ;;
  (if completed r then
     put_cout ("Calculation completed in " ++ show_double P calc_time
               ++ " seconds.")
   else
     put_cout ("Calculation timed out after " ++ show_double P calc_time
               ++ " seconds: target margin of error not reached.") ;;
     when (enumerateAll r) (put_cout "Consider using monte-carlo with --mc")) ;;
  ret EXIT_SUCCESS.

(** [int main(int argc, char **argv)] *)
Definition main (argv : list string) : M Z :=
  let '(hits, range_strs) := getopt_scan P argv in
  o <- options_loop hits default_options ;;
  check_finite o ;;
  r <- run_calculator o range_strs ;;
  print_results range_strs r.

End Driver.

(** ** Vocabulary of the statements *)

(** The line [fail_prog] writes for a report. *)
Definition diagnostic (err_report : string) : string :=
  "term-heval: error: " ++ err_report ++ ".".

(** The world once [fail_prog] has written its line. *)
Definition reported (err_report : string) (w : World) : World :=
  {| debug := debug w; cout := cout w;
     cerr := cerr w ++ [diagnostic err_report]; eq_calls := eq_calls w |}.

(** What the calculator and [cout] have seen is the same in both worlds. *)
Definition same_output (w w' : World) : Prop :=
  cout w' = cout w /\ eq_calls w' = eq_calls w.

(** The reports of the option loop, of the range checks, and of the
    non-termination check. *)
Definition option_report (r : string) : Prop :=
  In r [ "invalid board argument"; "invalid dead argument";
         "board has too many cards";
         "Error margin out of range"; "Invalid error margin argument";
         "Maximum time out of range (use -t 0 for no time limit)";
         "Invalid maximum time argument" ].

Definition range_report (r : string) : Prop :=
  r = "less than 2 hand ranges" \/ r = "more than 10 hand ranges" \/
  exists i, r = "range " ++ i ++ " invalid".

Definition infinite_report : string :=
  "infinite simulation queried (set time limit, error margin"
  ++ " or disable monte-carlo)".


(** [validates R m]: [m] writes to [cerr] and sets [debug] only, and ends by
    returning or through [fail_prog] with a report in [R].  All the driver
    does before it calls the calculator is of this kind. *)
Definition validates {A} (R : string -> Prop) (m : M A) : Prop :=
  forall w,
    match m w with
    | Ret _ w' => same_output w w'
    | Exited s w' =>
        s = EXIT_FAILURE /\
        (exists r, R r /\ last (cerr w') "" = diagnostic r) /\
        same_output w w'
    | Aborted _ => False
    end.

(** The process ended in [exit(EXIT_FAILURE)] and the last line on [cerr]
    is the diagnostic for [err_report]. *)
Definition fails_with {A} (err_report : string) (o : Outcome A) : Prop :=
  exists w, o = Exited EXIT_FAILURE w /\
            last (cerr w) "" = diagnostic err_report.


(** The world a computation ends in. *)
Definition final_world {A} (o : Outcome A) : World :=
  match o with
  | Ret _ w => w
  | Exited _ w => w
  | Aborted w => w
  end.

Definition is_start (c : EqCall) : bool :=
  match c with
  | Start _ _ _ _ _ => true
  | _ => false
  end.

(** [eq.start] has been called. *)
Definition engine_started (w : World) : bool := existsb is_start (eq_calls w).

(** The three conditions of the non-termination check. *)
Definition infinite_request (o : Options) : bool :=
  monte_carlo o && d_eq (err_margin o) d_zero && d_eq (time_max o) d_zero.

(** A double below zero, and one below one. *)
Definition d_lt (x y : double) : bool := SFltb x y.

(** Number of cards of a mask: the bits set among the 64. *)
Definition popcount (m : uint64) : nat :=
  List.length (filter (fun i => Z.testbit m (Z.of_nat i)) (seq 0 64)).

(** Modelled from the spec: the engine's removal of the combinations that
    conflict with the board and dead cards is not part of the driver; a
    combination conflicts when it shares a card with either set (spec,
    sections 3 and 4.4: "each player's Range restricted to combinations
    disjoint from board/dead"). *)
Definition remove_conflicts (boardCards deadCards : uint64) (r : CardRange)
  : list uint64 :=
  filter (fun c => Z.land c (Z.lor boardCards deadCards) =? 0)
         (combinations r).

(** The option loop without its failures: what each option asks for. *)
Definition requested (P : Platform) (o : Options) (hit : ascii * string)
  : Options :=
  let '(c, optarg) := hit in
  if Ascii.eqb c "b" then
    {| board := getCardMask P optarg; dead := dead o;
       monte_carlo := monte_carlo o; err_margin := err_margin o;
       time_max := time_max o |}
  else if Ascii.eqb c "d" then
    {| board := board o; dead := getCardMask P optarg;
       monte_carlo := monte_carlo o; err_margin := err_margin o;
       time_max := time_max o |}
  else if Ascii.eqb c "m" then
    {| board := board o; dead := dead o; monte_carlo := true;
       err_margin := err_margin o; time_max := time_max o |}
  else if Ascii.eqb c "e" then
    match stod P optarg with
    | StodValue v =>
        {| board := board o; dead := dead o; monte_carlo := monte_carlo o;
           err_margin := v; time_max := time_max o |}
    | _ => o
    end
  else if Ascii.eqb c "t" then
    match stod P optarg with
    | StodValue v =>
        {| board := board o; dead := dead o; monte_carlo := monte_carlo o;
           err_margin := err_margin o; time_max := v |}
    | _ => o
    end
  else o.

Definition request (P : Platform) (hits : list (ascii * string)) : Options :=
  fold_left (requested P) hits default_options.

(** An option whose argument the driver refuses. *)
Definition bad_option (P : Platform) (hit : ascii * string) : bool :=
  let '(c, optarg) := hit in
  if Ascii.eqb c "b" then
    (getCardMask P optarg =? 0) || Nat.ltb 10 (String.length optarg)
  else if Ascii.eqb c "d" then
    getCardMask P optarg =? 0
  else if Ascii.eqb c "e" || Ascii.eqb c "t" then
    match stod P optarg with
    | StodValue _ => false
    | _ => true
    end
  else false.

Definition empty_range (P : Platform) (s : string) : bool :=
  match combinations (mkCardRange P s) with
  | [] => true
  | _ => false
  end.

(** The configuration errors of a command line: a refused option argument,
    a non-terminating Monte Carlo request, a bad number of ranges, an empty
    range. *)
Definition config_error (P : Platform) (argv : list string) : bool :=
  let '(hits, range_strs) := getopt_scan P argv in
  existsb (bad_option P) hits
  || infinite_request (request P hits)
  || Nat.ltb (List.length range_strs) 2
  || Nat.ltb 10 (List.length range_strs)
  || existsb (empty_range P) range_strs.

(** The lines that close the report. *)
Definition hint_line : string := "Consider using monte-carlo with --mc".

Definition timed_out_line (P : Platform) (r : Results) : string :=
  "Calculation timed out after " ++ show_double P (tenths P (time r))
  ++ " seconds: target margin of error not reached.".

Definition completed_line (P : Platform) (r : Results) : string :=
  "Calculation completed in " ++ show_double P (tenths P (time r))
  ++ " seconds.".

(** The equity table: the header, then for each [i] the [i]-th range
    string with the [i]-th entry of [r.equity]. *)
Definition equity_line (P : Platform) (range_strs : list string)
  (r : Results) (i : nat) : string :=
  nth i range_strs "" ++ ": " ++ to_string_double P (equity r i).

Definition equity_table (P : Platform) (range_strs : list string)
  (r : Results) : list string :=
  ("Equity between " ++ to_string_nat (players r) ++ " players:")
  :: map (equity_line P range_strs r) (seq 0 (List.length range_strs)).

(** The lines after the table. *)
Definition closing_lines (P : Platform) (r : Results) : list string :=
  if completed r then [completed_line P r]
  else timed_out_line P r :: (if enumerateAll r then [hint_line] else []).

(** The calls a request makes on the calculator. *)
Definition calculator_calls (P : Platform) (o : Options)
  (range_strs : list string) : list EqCall :=
  [ SetTimeLimit (time_max o);
    Start (map (mkCardRange P) range_strs) (board o) (dead o)
          (monte_carlo o) (err_margin o);
    Wait ].

(** ** Vocabulary of the further properties *)

(** The report [handle_option] gives for an option it refuses. *)
Definition option_error (P : Platform) (hit : ascii * string) : string :=
  let '(c, optarg) := hit in
  if Ascii.eqb c "b" then
    if getCardMask P optarg =? 0 then "invalid board argument"
    else "board has too many cards"
  else if Ascii.eqb c "d" then "invalid dead argument"
  else if Ascii.eqb c "e" then
    match stod P optarg with
    | StodOutOfRange => "Error margin out of range"
    | _ => "Invalid error margin argument"
    end
  else
    match stod P optarg with
    | StodOutOfRange =>
        "Maximum time out of range (use -t 0 for no time limit)"
    | _ => "Invalid maximum time argument"
    end.

(** The option characters the [switch] has a [case] with a body for. *)
Definition handled (hit : ascii * string) : bool :=
  existsb (Ascii.eqb (fst hit)) ["0"; "b"; "d"; "m"; "e"; "t"]%char.

(** The option that sets the [debug] flag. *)
Definition is_debug (hit : ascii * string) : bool := Ascii.eqb (fst hit) "0".

(** The world with the [debug] flag set. *)
Definition debugging (w : World) : World :=
  {| debug := true; cout := cout w; cerr := cerr w; eq_calls := eq_calls w |}.

(** The world after a list of accepted options: the flag is set when the
    debug option is among them, and nothing else has changed. *)
Definition after_options (hits : list (ascii * string)) (w : World) : World :=
  if existsb is_debug hits then debugging w else w.

(** The world once [lines] more have been written on [cerr]. *)
Definition logged (lines : list string) (w : World) : World :=
  {| debug := debug w; cout := cout w; cerr := cerr w ++ lines;
     eq_calls := eq_calls w |}.

(** Two outcomes that a caller who does not read [cerr] cannot tell apart:
    the same way of ending, the same status, the same [cout] and the same
    calls on the calculator. *)
Definition same_result {A} (o1 o2 : Outcome A) : Prop :=
  match o1, o2 with
  | Ret a1 w1, Ret a2 w2 => a1 = a2 /\ same_output w1 w2
  | Exited s1 w1, Exited s2 w2 => s1 = s2 /\ same_output w1 w2
  | Aborted w1, Aborted w2 => same_output w1 w2
  | _, _ => False
  end.

(** A range that has a combination. *)
Definition nonempty_range (r : CardRange) : bool :=
  match combinations r with
  | [] => false
  | _ => true
  end.

(** ** A small platform to run the driver on

    The theorems below hold for every [Platform].  To evaluate the driver on
    a command line one platform is needed; this one is kept simple: a
    scanner for the driver's option table (exact option names, the argument
    in the next word, options and ranges in any order), [stod] and the
    printing of doubles on the few values that occur below, two-letter cards
    at bit [4 * rank + suit] with repeated cards merged, ranges that are one
    hand ("AsKs") or one pair ("AA"), [round] on whole numbers, and a
    calculator that answers every request with the results it was built
    with. *)
Module Sample.

Definition takes_argument (c : ascii) : bool :=
  existsb (Ascii.eqb c) ["b"; "d"; "e"; "t"]%char.

Definition short_option (a : string) : option ascii :=
  match a with
  | String "-" (String c "") =>
      if existsb (Ascii.eqb c) ["0"; "b"; "d"; "m"; "e"; "t"; "h"]%char
      then Some c else None
  | _ => None
  end.

Definition long_option (a : string) : option ascii :=
  match a with
  | String "-" (String "-" name) =>
      match find (fun e => String.eqb (fst (fst e)) name) long_options with
      | Some e => Some (snd e)
      | None => None
      end
  | _ => None
  end.

Definition option_of (a : string) : option ascii :=
  match short_option a with
  | Some c => Some c
  | None => long_option a
  end.

(** Options may stand anywhere; the other words are kept in order. *)
Fixpoint scan (args : list string) : list (ascii * string) * list string :=
  match args with
  | [] => ([], [])
  | a :: rest =>
      match option_of a with
      | Some c =>
          if takes_argument c then
            match rest with
            | v :: rest' =>
                let '(hits, words) := scan rest' in ((c, v) :: hits, words)
            | [] => ([("?"%char, "")], [])
            end
          else
            let '(hits, words) := scan rest in ((c, "") :: hits, words)
      | None =>
          let '(hits, words) := scan rest in (hits, a :: words)
      end
  end.

(** [argv[0]] is the program's name. *)
Definition scan_argv (argv : list string) := scan (tl argv).

(** -1 and 1/2. *)
Definition minus_one : double := S754_finite true 4503599627370496 (-52).
Definition one_half : double := S754_finite false 4503599627370496 (-53).

(** [std::stod] on the strings used below; any other string counts as
    unreadable here. *)
Definition decimal (s : string) : stod_result :=
  if String.eqb s "0" then StodValue d_zero
  else if String.eqb s "1" then StodValue d_one
  else if String.eqb s "0.5" then StodValue one_half
  else if String.eqb s "-1" then StodValue minus_one
  else if String.eqb s "1e999" then StodOutOfRange
  else StodInvalidArgument.

Fixpoint index_of (c : ascii) (l : list ascii) : option Z :=
  match l with
  | [] => None
  | x :: l' =>
      if Ascii.eqb c x then Some 0
      else match index_of c l' with
           | Some n => Some (n + 1)
           | None => None
           end
  end.

Definition rank_of (c : ascii) : option Z :=
  index_of c (list_ascii_of_string "23456789TJQKA").

Definition suit_of (c : ascii) : option Z :=
  index_of c (list_ascii_of_string "shcd").

Definition card_bit (rank suit : Z) : uint64 := Z.shiftl 1 (4 * rank + suit).

(** Two characters a card, rank then suit; the bits are or-ed, so a card
    given twice counts once; any other character makes the string
    unreadable and the mask 0. *)
Fixpoint cards_of (s : string) : option uint64 :=
  match s with
  | "" => Some 0
  | String r (String u rest) =>
      match rank_of r, suit_of u, cards_of rest with
      | Some r, Some u, Some m => Some (Z.lor (card_bit r u) m)
      | _, _, _ => None
      end
  | _ => None
  end.

Definition mask_of (s : string) : uint64 :=
  match cards_of s with
  | Some m => m
  | None => 0
  end.

Definition pair_combinations (rank : Z) : list uint64 :=
  map (fun ij => Z.lor (card_bit rank (fst ij)) (card_bit rank (snd ij)))
      [(0, 1); (0, 2); (0, 3); (1, 2); (1, 3); (2, 3)].

(** A pair ("AA") has its six combinations, a hand of two different cards
    ("AsKs") has one; everything else is the empty range. *)
Definition range_of (s : string) : CardRange :=
  match s with
  | String a (String b "") =>
      match rank_of a, rank_of b with
      | Some x, Some y =>
          {| combinations := if x =? y then pair_combinations x else [] |}
      | _, _ => {| combinations := [] |}
      end
  | String _ (String _ (String _ (String _ ""))) =>
      let m := mask_of s in
      {| combinations := if Nat.eqb (popcount m) 2 then [m] else [] |}
  | _ => {| combinations := [] |}
  end.

(** The doubles that occur below, as ["%f"] and as [operator<<] print
    them. *)
Definition same (x y : double) : bool :=
  match x, y with
  | S754_zero a, S754_zero b => Bool.eqb a b
  | S754_infinity a, S754_infinity b => Bool.eqb a b
  | S754_nan, S754_nan => true
  | S754_finite a m e, S754_finite b n f =>
      Bool.eqb a b && Pos.eqb m n && Z.eqb e f
  | _, _ => false
  end.

Definition fixed (d : double) : string :=
  if same d d_zero then "0.000000"
  else if same d one_half then "0.500000"
  else if same d d_one then "1.000000"
  else if same d minus_one then "-1.000000"
  else "?".

Definition shortest (d : double) : string :=
  if same d d_zero then "0"
  else if same d one_half then "0.5"
  else if same d d_one then "1"
  else if same d minus_one then "-1"
  else "?".

(** The results the calculator gives for a request: those it was built
    with, for as many players as ranges were passed to [start]. *)
Definition results (r : Results) (calls : list EqCall) : Results :=
  match find is_start calls with
  | Some (Start handRanges _ _ _ _) =>
      {| players := List.length handRanges; equity := equity r;
         progress := progress r; stdev := stdev r; time := time r;
         enumerateAll := enumerateAll r |}
  | _ => r
  end.

Definition platform (r : Results) : Platform :=
  {| getopt_scan := scan_argv;
     stod := decimal;
     to_string_double := fixed;
     show_double := shortest;
     round := fun d => d;
     mkCardRange := range_of;
     getCardMask := mask_of;
     getResults := results r |}.

(** A run that finished, and one that ran out of time while enumerating. *)
Definition finished : Results :=
  {| players := 0; equity := fun _ => one_half; progress := d_one;
     stdev := d_zero; time := d_one; enumerateAll := true |}.

Definition out_of_time : Results :=
  {| players := 0; equity := fun _ => one_half; progress := one_half;
     stdev := d_zero; time := d_one; enumerateAll := true |}.

End Sample.

(** ** Doubles compared with 0 and 1 *)

Lemma d_eq_zero_iff (x : double) :
  d_eq x d_zero = true <-> exists s, x = S754_zero s.
Proof.
  split.
  - destruct x as [s | s | | s m e]; cbn; try discriminate.
    + intros _. now exists s.
    + destruct s; discriminate.
    + destruct s; discriminate.
  - intros [s ->]. reflexivity.
Qed.

Lemma SFcompare_antisym (x y : double) :
  SFcompare y x = option_map CompOpp (SFcompare x y).
Proof.
  destruct x as [s | s | | s m e], y as [s' | s' | | s' m' e']; cbn;
    try reflexivity;
    try (destruct s; reflexivity);
    try (destruct s'; reflexivity);
    try (destruct s, s'; reflexivity).
  change (Pos.compare_cont Eq m m') with (Pos.compare m m').
  change (Pos.compare_cont Eq m' m) with (Pos.compare m' m).
  rewrite (Z.compare_antisym e' e), (Pos.compare_antisym m' m).
  destruct s, s', (e' ?= e), (Pos.compare m' m); reflexivity.
Qed.

(** A value below [y] is not [>= y]. *)
Lemma d_lt_not_ge (x y : double) : d_lt x y = true -> d_ge x y = false.
Proof.
  unfold d_lt, d_ge, SFltb, SFleb. rewrite (SFcompare_antisym x y).
  destruct (SFcompare x y) as [[ | | ] | ]; cbn; congruence.
Qed.

Lemma fail_prog_run (r : string) (status : Z) (w : World) :
  fail_prog r status w = Exited status (reported r w).
Proof. reflexivity. Qed.

Lemma debug_print_eq (s : string) (w : World) :
  exists w', debug_print s w = Ret tt w' /\ same_output w w'.
Proof.
  unfold debug_print. destruct (negb (debug w)); eexists; split;
    try reflexivity; split; reflexivity.
Qed.

Lemma same_output_refl (w : World) : same_output w w.
Proof. split; reflexivity. Qed.

Lemma same_output_trans (w1 w2 w3 : World) :
  same_output w1 w2 -> same_output w2 w3 -> same_output w1 w3.
Proof. intros [A B] [C D]. split; congruence. Qed.

(** ** How the pieces of the driver end *)

Section Validation.

Context (R : string -> Prop).

Lemma validates_ret {A} (a : A) : validates R (ret a).
Proof. intros w. apply same_output_refl. Qed.

Lemma validates_bind {A B} (m : M A) (k : A -> M B) :
  validates R m -> (forall a, validates R (k a)) -> validates R (bind m k).
Proof.
  intros Hm Hk w. unfold bind. specialize (Hm w).
  destruct (m w) as [a w1 | s w1 | w1]; try assumption.
  specialize (Hk a w1).
  destruct (k a w1) as [b w2 | s w2 | w2]; try assumption.
  - eauto using same_output_trans.
  - destruct Hk as (Hs & Hr & Ho). eauto using same_output_trans.
Qed.

Lemma validates_fail_prog (r : string) :
  R r -> validates R (fail_prog r EXIT_FAILURE).
Proof.
  intros Hr w. rewrite fail_prog_run. split; [reflexivity | ].
  split; [ | split; reflexivity ].
  exists r. split; [exact Hr | apply last_last].
Qed.

Lemma validates_debug_print (s : string) : validates R (debug_print s).
Proof.
  intros w. destruct (debug_print_eq s w) as (w' & -> & H). exact H.
Qed.

Lemma validates_set_debug (b : bool) : validates R (set_debug b).
Proof. intros w. split; reflexivity. Qed.

Lemma validates_when (b : bool) (m : M unit) :
  validates R m -> validates R (when b m).
Proof. intros Hm. destruct b; [exact Hm | apply validates_ret]. Qed.

End Validation.

Create HintDb validation.
#[local] Hint Resolve validates_ret validates_debug_print
  validates_set_debug validates_when : validation.
#[local] Hint Extern 2 (validates _ (bind _ _)) =>
  apply validates_bind; [ | intro ] : validation.
#[local] Hint Extern 2 (validates _ (fail_prog _ _)) =>
  apply validates_fail_prog;
  solve [unfold range_report, option_report; cbn; auto 10] : validation.

Lemma validates_get_cardmask (P : Platform) (cards : string) (b : bool) :
  validates option_report (get_cardmask P cards b).
Proof.
  unfold get_cardmask.
  apply validates_bind; [ | intro; apply validates_bind ];
    auto with validation.
  destruct b; auto with validation.
Qed.

Lemma validates_handle_option (P : Platform) (c : ascii) (a : string)
  (o : Options) : validates option_report (handle_option P c a o).
Proof.
  pose proof (validates_get_cardmask P) as Hm.
  unfold handle_option.
  repeat match goal with
         | |- validates _ (if ?b then _ else _) => destruct b
         | |- validates _ (match ?x with _ => _ end) => destruct x
         end; auto with validation.
Qed.

Lemma validates_options_loop (P : Platform) (hits : list (ascii * string)) :
  forall o, validates option_report (options_loop P hits o).
Proof.
  induction hits as [ | [c a] hits IH]; intros o; cbn [options_loop].
  - apply validates_ret.
  - apply validates_bind; [apply validates_handle_option | exact IH].
Qed.

Lemma validates_ranges_loop (P : Platform) (strs : list string) :
  forall ranges, validates range_report (ranges_loop P strs ranges).
Proof.
  induction strs as [ | i strs IH]; intros ranges; cbn [ranges_loop].
  - apply validates_ret.
  - apply validates_bind; [ | intro; apply validates_bind ];
      auto with validation.
    apply validates_when, validates_fail_prog.
    right. right. now exists i.
Qed.

Lemma validates_get_ranges_from_argv (P : Platform) (strs : list string) :
  validates range_report (get_ranges_from_argv P strs).
Proof.
  unfold get_ranges_from_argv.
  apply validates_bind; [ | intro; apply validates_bind; [ | intro ] ];
    auto with validation.
  apply validates_ranges_loop.
Qed.

(** ** The option loop, option by option *)

Ltac unfold_prog :=
  unfold get_cardmask, check_finite, fail_prog, when, bind, ret, exit,
    put_cerr, set_debug in *.

(** [get_cardmask] ends in exactly one of three ways. *)
Lemma get_cardmask_run (P : Platform) (cards : string) (b : bool) (w : World) :
  get_cardmask P cards b w =
    if getCardMask P cards =? 0 then
      Exited EXIT_FAILURE
        (reported (if b then "invalid board argument"
                   else "invalid dead argument") w)
    else if b && Nat.ltb 10 (String.length cards) then
      Exited EXIT_FAILURE (reported "board has too many cards" w)
    else Ret (getCardMask P cards) w.
Proof.
  unfold_prog.
  destruct (getCardMask P cards =? 0); [destruct b; reflexivity | ].
  destruct b; [ | reflexivity ]. cbn [andb].
  destruct (Nat.ltb 10 (String.length cards)); reflexivity.
Qed.

(** A refused option ends the process; any other one updates the option
    variables as [requested] says. *)
Lemma handle_option_run (P : Platform) (c : ascii) (a : string) (o : Options)
  (w : World) :
  if bad_option P (c, a)
  then exists w', handle_option P c a o w = Exited EXIT_FAILURE w'
  else exists w', handle_option P c a o w = Ret (requested P o (c, a)) w'.
Proof.
  unfold handle_option, bad_option, requested.
  destruct (Ascii.eqb c "0") eqn:E0.
  { apply Ascii.eqb_eq in E0. subst c. cbn. eexists. reflexivity. }
  destruct (Ascii.eqb c "b").
  { unfold bind. rewrite get_cardmask_run. cbn [andb].
    destruct (getCardMask P a =? 0); cbn [orb].
    - eexists. reflexivity.
    - destruct (Nat.ltb 10 (String.length a)); eexists; reflexivity. }
  destruct (Ascii.eqb c "d").
  { unfold bind. rewrite get_cardmask_run. cbn [andb].
    destruct (getCardMask P a =? 0); eexists; reflexivity. }
  destruct (Ascii.eqb_spec c "m") as [-> | _].
  { change (Ascii.eqb "m" "e") with false.
    change (Ascii.eqb "m" "t") with false. eexists. reflexivity. }
  destruct (Ascii.eqb c "e").
  { cbn [orb]. destruct (stod P a); eexists; reflexivity. }
  destruct (Ascii.eqb c "t").
  { cbn [orb]. destruct (stod P a); eexists; reflexivity. }
  eexists. reflexivity.
Qed.

Lemma options_loop_run (P : Platform) (hits : list (ascii * string)) :
  forall (o : Options) (w : World),
    if existsb (bad_option P) hits
    then exists w', options_loop P hits o w = Exited EXIT_FAILURE w'
    else exists w',
        options_loop P hits o w = Ret (fold_left (requested P) hits o) w'.
Proof.
  induction hits as [ | [c a] hits IH]; intros o w; cbn [existsb fold_left].
  - exists w. reflexivity.
  - cbn [options_loop]. unfold bind.
    pose proof (handle_option_run P c a o w) as H.
    destruct (bad_option P (c, a)); cbn [orb].
    + destruct H as [w' ->]. now exists w'.
    + destruct H as [w' ->].
      specialize (IH (requested P o (c, a)) w').
      destruct (existsb (bad_option P) hits); exact IH.
Qed.

(** When the option loop returns, no option was refused and the option
    variables hold the request. *)
Lemma options_loop_ret (P : Platform) (hits : list (ascii * string))
  (o o' : Options) (w w' : World) :
  options_loop P hits o w = Ret o' w' ->
  existsb (bad_option P) hits = false /\
  o' = fold_left (requested P) hits o.
Proof.
  intros H. pose proof (options_loop_run P hits o w) as R.
  destruct (existsb (bad_option P) hits).
  - destruct R as [w1 R]. congruence.
  - destruct R as [w1 R]. split; [reflexivity | congruence].
Qed.

Lemma requested_board (P : Platform) (o : Options) (c : ascii) (a : string) :
  board (requested P o (c, a)) =
    if Ascii.eqb c "b" then getCardMask P a else board o.
Proof.
  unfold requested.
  destruct (Ascii.eqb c "b"), (Ascii.eqb c "d"), (Ascii.eqb c "m"),
    (Ascii.eqb c "e"), (Ascii.eqb c "t"), (stod P a); reflexivity.
Qed.

Lemma requested_dead (P : Platform) (o : Options) (c : ascii) (a : string) :
  dead (requested P o (c, a)) =
    if Ascii.eqb c "d" then getCardMask P a else dead o.
Proof.
  unfold requested.
  destruct (Ascii.eqb_spec c "b") as [-> | _]; [reflexivity | ].
  destruct (Ascii.eqb c "d"), (Ascii.eqb c "m"),
    (Ascii.eqb c "e"), (Ascii.eqb c "t"), (stod P a); reflexivity.
Qed.

Lemma accepted_board (P : Platform) (a : string) :
  bad_option P ("b"%char, a) = false -> getCardMask P a <> 0.
Proof.
  cbn. intros H. apply orb_false_iff in H. now apply Z.eqb_neq.
Qed.

Lemma accepted_dead (P : Platform) (a : string) :
  bad_option P ("d"%char, a) = false -> getCardMask P a <> 0.
Proof. cbn. intros H. now apply Z.eqb_neq. Qed.

(** The board of a request whose options were all accepted: a non-empty
    mask as soon as one [b] option occurs, the initial one otherwise; and
    the same for the dead cards. *)
Lemma requested_masks (P : Platform) (hits : list (ascii * string)) :
  forall o,
    existsb (bad_option P) hits = false ->
    ((exists s, In ("b"%char, s) hits) ->
       board (fold_left (requested P) hits o) <> 0) /\
    ((forall s, ~ In ("b"%char, s) hits) ->
       board (fold_left (requested P) hits o) = board o) /\
    ((exists s, In ("d"%char, s) hits) ->
       dead (fold_left (requested P) hits o) <> 0) /\
    ((forall s, ~ In ("d"%char, s) hits) ->
       dead (fold_left (requested P) hits o) = dead o).
Proof.
  induction hits as [ | [c a] hits IH] using rev_ind; intros o Hbad.
  - cbn. repeat split; auto; intros [s []].
  - rewrite existsb_app in Hbad. apply orb_false_iff in Hbad.
    destruct Hbad as [Hbad Hlast]. cbn [existsb] in Hlast.
    rewrite orb_false_r in Hlast.
    rewrite fold_left_app. cbn [fold_left].
    rewrite requested_board, requested_dead.
    specialize (IH o Hbad). destruct IH as (Hb1 & Hb0 & Hd1 & Hd0).
    assert (Hin : forall x s, In (x, s) (hits ++ [(c, a)]) <->
                              In (x, s) hits \/ (x = c /\ s = a)).
    { intros x s. rewrite in_app_iff. cbn. intuition congruence. }
    repeat split.
    + intros [s Hs]. apply Hin in Hs.
      destruct (Ascii.eqb_spec c "b") as [-> | Hc].
      * now apply accepted_board.
      * destruct Hs as [Hs | [Hs _]]; [ apply Hb1; now exists s | congruence ].
    + intros Hno. destruct (Ascii.eqb_spec c "b") as [-> | Hc].
      * exfalso. apply (Hno a). apply Hin. now right.
      * apply Hb0. intros s Hs. apply (Hno s). apply Hin. now left.
    + intros [s Hs]. apply Hin in Hs.
      destruct (Ascii.eqb_spec c "d") as [-> | Hc].
      * now apply accepted_dead.
      * destruct Hs as [Hs | [Hs _]]; [ apply Hd1; now exists s | congruence ].
    + intros Hno. destruct (Ascii.eqb_spec c "d") as [-> | Hc].
      * exfalso. apply (Hno a). apply Hin. now right.
      * apply Hd0. intros s Hs. apply (Hno s). apply Hin. now left.
Qed.

(** ** The range checks and the calculator *)

(** The loop over the range strings returns the ranges when none is empty,
    and ends the process at the first empty one. *)
Lemma ranges_loop_run (P : Platform) (strs : list string) :
  forall (ranges : list CardRange) (w : World),
    if existsb (empty_range P) strs
    then exists w', ranges_loop P strs ranges w = Exited EXIT_FAILURE w'
    else exists w',
        ranges_loop P strs ranges w =
          Ret (ranges ++ map (mkCardRange P) strs)%list w'.
Proof.
  induction strs as [ | i strs IH]; intros ranges w; cbn [existsb map].
  - exists w. cbn. now rewrite app_nil_r.
  - cbn [ranges_loop]. unfold empty_range at 1.
    destruct (combinations (mkCardRange P i)) as [ | c cs] eqn:E; cbn [orb].
    + eexists. reflexivity.
    + unfold bind, when, ret.
      destruct (debug_print_eq ("Range added: " ++ i) w) as (w1 & -> & _).
      specialize (IH (ranges ++ [mkCardRange P i])%list w1).
      rewrite <- app_assoc in IH. exact IH.
Qed.

Lemma get_ranges_from_argv_run (P : Platform) (strs : list string) (w : World) :
  if Nat.ltb (List.length strs) 2 || Nat.ltb 10 (List.length strs)
     || existsb (empty_range P) strs
  then exists w', get_ranges_from_argv P strs w = Exited EXIT_FAILURE w'
  else exists w',
      get_ranges_from_argv P strs w = Ret (map (mkCardRange P) strs) w'.
Proof.
  unfold get_ranges_from_argv, bind, when.
  destruct (Nat.ltb (List.length strs) 2); cbn [orb].
  { eexists. reflexivity. }
  destruct (Nat.ltb 10 (List.length strs)); cbn [orb].
  { eexists. reflexivity. }
  exact (ranges_loop_run P strs [] w).
Qed.

Lemma check_finite_run (o : Options) (w : World) :
  check_finite o w =
    if infinite_request o
    then Exited EXIT_FAILURE
           (reported ("infinite simulation queried (set time limit, error "
                      ++ "margin or disable monte-carlo)") w)
    else Ret tt w.
Proof.
  unfold check_finite, when. fold (infinite_request o).
  destruct (infinite_request o); reflexivity.
Qed.

Lemma bind_ret_eq {A B} (m : M A) (k : A -> M B) (w w' : World) (a : A) :
  m w = Ret a w' -> bind m k w = k a w'.
Proof. intros E. unfold bind. now rewrite E. Qed.

Lemma bind_exited_eq {A B} (m : M A) (k : A -> M B) (w w' : World) (s : Z) :
  m w = Exited s w' -> bind m k w = Exited s w'.
Proof. intros E. unfold bind. now rewrite E. Qed.

(** Passing the [debug_print] at the head of the computation. *)
Ltac pass_debug_print :=
  match goal with
  | |- context [bind (debug_print ?s) ?k ?w] =>
      let w' := fresh "w" in
      let E := fresh "E" in
      let H := fresh "H" in
      destruct (debug_print_eq s w) as (w' & E & H);
      rewrite (bind_ret_eq (debug_print s) k w w' tt E);
      cbv beta; clear E
  end.

(** The calculator is called once the ranges are accepted, and then the
    results are those it gives after the three calls. *)
Lemma run_calculator_run (P : Platform) (o : Options) (strs : list string)
  (w : World) :
  if Nat.ltb (List.length strs) 2 || Nat.ltb 10 (List.length strs)
     || existsb (empty_range P) strs
  then exists w',
      run_calculator P o strs w = Exited EXIT_FAILURE w' /\
      same_output w w' /\
      exists r, range_report r /\ last (cerr w') "" = diagnostic r
  else exists w',
      run_calculator P o strs w = Ret (getResults P (eq_calls w')) w' /\
      cout w' = cout w /\
      eq_calls w' = (eq_calls w ++ calculator_calls P o strs)%list.
Proof.
  pose proof (get_ranges_from_argv_run P strs w) as R.
  pose proof (validates_get_ranges_from_argv P strs w) as V.
  unfold run_calculator.
  destruct (Nat.ltb (List.length strs) 2 || Nat.ltb 10 (List.length strs)
            || existsb (empty_range P) strs).
  - destruct R as [w' R]. rewrite R in V. exists w'.
    rewrite (bind_exited_eq _ _ _ _ _ R).
    destruct V as (_ & Vr & Vo).
    split; [reflexivity | split; [exact Vo | exact Vr] ].
  - destruct R as [w' R]. rewrite R in V.
    rewrite (bind_ret_eq _ _ _ _ _ R).
    unfold bind at 1. cbn [eq_call].
    repeat pass_debug_print.
    unfold bind, eq_call. cbn.
    lazymatch goal with
    | |- exists _, Ret _ ?W = _ /\ _ => exists W
    end.
    split; [reflexivity | ]. cbn.
    destruct V as [Vc Ve]. destruct H as [Hc He]. destruct H0 as [Hc0 He0].
    destruct H1 as [Hc1 He1]. destruct H2 as [Hc2 He2]. cbn in *.
    split; [congruence | ].
    rewrite He2, He1, He0, He, Ve. unfold calculator_calls.
    rewrite <- !app_assoc. reflexivity.
Qed.

(** The table loop prints lines [k .. k + n) of the table. *)
Lemma print_equities_run (P : Platform) (strs : list string) (r : Results) :
  forall (n k : nat) (w : World),
    (k + n <= List.length strs)%nat ->
    exists w',
      for_each (seq k n) (print_equity P strs r) w = Ret tt w' /\
      cout w' = (cout w ++ map (equity_line P strs r) (seq k n))%list /\
      eq_calls w' = eq_calls w.
Proof.
  induction n as [ | n IH]; intros k w Hk; cbn [seq for_each map].
  - exists w. rewrite app_nil_r. repeat split.
  - assert (Hs : exists s, nth_error strs k = Some s).
    { destruct (nth_error strs k) as [s | ] eqn:E; [now exists s | ].
      apply nth_error_None in E. lia. }
    destruct Hs as [s Hs].
    unfold bind, print_equity at 1. rewrite Hs. cbn [put_cout].
    destruct (IH (S k)
                {| debug := debug w;
                   cout := cout w ++
                           [s ++ ": " ++ to_string_double P (equity r k)];
                   cerr := cerr w; eq_calls := eq_calls w |})
      as (w' & E & Hc & He); [lia | ].
    exists w'. split; [exact E | ]. split; [ | exact He ].
    rewrite Hc. cbn [cout]. rewrite <- app_assoc. cbn [app].
    unfold equity_line at 2. now rewrite (nth_error_nth _ _ _ Hs).
Qed.

Lemma put_cout_eq (line : string) (w : World) :
  exists w', put_cout line w = Ret tt w' /\
             cout w' = (cout w ++ [line])%list /\ eq_calls w' = eq_calls w.
Proof. eexists. repeat split. Qed.

Ltac pass_put_cout :=
  match goal with
  | |- context [bind (put_cout ?s) ?k ?w] =>
      let w' := fresh "w" in
      let E := fresh "E" in
      let Hc := fresh "Hc" in
      let He := fresh "He" in
      destruct (put_cout_eq s w) as (w' & E & Hc & He);
      rewrite (bind_ret_eq (put_cout s) k w w' tt E);
      cbv beta; clear E
  end.

(** Reading [cout] and [eq_calls] back through the worlds passed. *)
Ltac chase_output :=
  repeat match goal with
         | H : same_output _ _ |- _ => destruct H
         end;
  repeat match goal with
         | H : cout ?x = _ |- _ => rewrite H; clear H
         | H : eq_calls ?x = _ |- _ => rewrite H; clear H
         end.

(** The report: with as many players as range strings, the table and the
    closing lines are printed and [main] returns [EXIT_SUCCESS]; otherwise
    the assertion stops the process before anything is printed. *)
Lemma print_results_run (P : Platform) (strs : list string) (r : Results)
  (w : World) :
  if Nat.eqb (List.length strs) (players r)
  then exists w',
      print_results P strs r w = Ret EXIT_SUCCESS w' /\
      cout w' = (cout w ++ equity_table P strs r ++ closing_lines P r)%list /\
      eq_calls w' = eq_calls w
  else exists w', print_results P strs r w = Aborted w' /\ same_output w w'.
Proof.
  unfold print_results. repeat pass_debug_print.
  destruct (Nat.eqb (List.length strs) (players r)) eqn:En.
  - apply Nat.eqb_eq in En.
    match goal with
    | |- context [bind (c_assert true) ?k ?w0] =>
        rewrite (bind_ret_eq (c_assert true) k w0 w0 tt eq_refl)
    end.
    pass_put_cout.
    match goal with
    | |- context [bind (for_each ?l ?b) ?k ?w0] =>
        destruct (print_equities_run P strs r (players r) 0 w0)
          as (wt & Et & Hct & Het); [ lia | ];
        rewrite (bind_ret_eq (for_each l b) k w0 wt tt Et); clear Et
    end.
    repeat pass_debug_print.
    unfold equity_table, closing_lines, completed_line, timed_out_line,
      hint_line, when.
    rewrite <- En in *.
    destruct (completed r), (enumerateAll r);
      repeat pass_put_cout;
      match goal with
      | |- context [bind (ret tt) ?k ?w0] =>
          rewrite (bind_ret_eq (ret tt) k w0 w0 tt eq_refl)
      | _ => idtac
      end;
      unfold ret; eexists; (split; [reflexivity | ]);
      cbn [cout eq_calls]; chase_output; rewrite <- ?app_assoc;
      split; reflexivity.
  - match goal with
    | |- context [bind (c_assert false) ?k ?w0] =>
        exists w0; split; [reflexivity | ]
    end.
    eauto using same_output_trans.
Qed.

(** ** The whole of [main] *)

(** [main] runs its checks in this order: the options as getopt returns
    them, the non-termination check, the number of ranges and the ranges
    themselves; only then is the calculator called, and the results it
    gives are reported. *)
Lemma main_run (P : Platform) (argv : list string)
  (hits : list (ascii * string)) (strs : list string) (w : World) :
  getopt_scan P argv = (hits, strs) ->
  if existsb (bad_option P) hits then
    exists w' r,
      main P argv w = Exited EXIT_FAILURE w' /\ same_output w w' /\
      option_report r /\ last (cerr w') "" = diagnostic r
  else if infinite_request (request P hits) then
    exists w',
      main P argv w = Exited EXIT_FAILURE w' /\ same_output w w' /\
      last (cerr w') "" = diagnostic infinite_report
  else if Nat.ltb (List.length strs) 2 || Nat.ltb 10 (List.length strs)
          || existsb (empty_range P) strs then
    exists w' r,
      main P argv w = Exited EXIT_FAILURE w' /\ same_output w w' /\
      range_report r /\ last (cerr w') "" = diagnostic r
  else
    exists w',
      main P argv w = print_results P strs (getResults P (eq_calls w')) w' /\
      cout w' = cout w /\
      eq_calls w' =
        (eq_calls w ++ calculator_calls P (request P hits) strs)%list.
Proof.
  intros Hscan. unfold main. rewrite Hscan.
  pose proof (options_loop_run P hits default_options w) as Ho.
  pose proof (validates_options_loop P hits default_options w) as Vo.
  destruct (existsb (bad_option P) hits).
  { destruct Ho as [w1 Ho]. rewrite Ho in Vo.
    destruct Vo as (_ & (r & Hr & Hl) & Hs).
    exists w1, r. rewrite (bind_exited_eq _ _ _ _ _ Ho). auto. }
  destruct Ho as [w1 Ho]. rewrite Ho in Vo.
  rewrite (bind_ret_eq _ _ _ _ _ Ho). fold (request P hits).
  pose proof (check_finite_run (request P hits) w1) as Hf.
  destruct (infinite_request (request P hits)).
  { rewrite (bind_exited_eq _ _ _ _ _ Hf).
    eexists. split; [reflexivity | ]. split.
    - destruct Vo as [Vc Ve]. split; cbn; assumption.
    - apply last_last. }
  rewrite (bind_ret_eq _ _ _ _ _ Hf).
  pose proof (run_calculator_run P (request P hits) strs w1) as Hr.
  destruct (Nat.ltb (List.length strs) 2 || Nat.ltb 10 (List.length strs)
            || existsb (empty_range P) strs).
  { destruct Hr as (w2 & Hr & Hs & r & Hrr & Hl).
    exists w2, r. rewrite (bind_exited_eq _ _ _ _ _ Hr).
    eauto using same_output_trans. }
  destruct Hr as (w2 & Hr & Hc & He).
  exists w2. rewrite (bind_ret_eq _ _ _ _ _ Hr).
  destruct Vo as [Vc Ve]. rewrite Hc, He, Vc, Ve. auto.
Qed.

(** The reports are told apart by their text. *)
Lemma option_report_not_infinite (r : string) :
  option_report r -> diagnostic r <> diagnostic infinite_report.
Proof.
  unfold option_report. cbn [In].
  intros [<- | [<- | [<- | [<- | [<- | [<- | [<- | []]]]]]]]; discriminate.
Qed.

Lemma range_report_not_infinite (r : string) :
  range_report r -> diagnostic r <> diagnostic infinite_report.
Proof.
  intros [-> | [-> | [i ->]]]; discriminate.
Qed.

(** ** The non-termination check *)

(** The check reads its three conditions as: Monte Carlo asked for, a margin
    that is a zero, a time limit that is a zero. *)
Lemma infinite_request_iff (o : Options) :
  infinite_request o = true <->
  monte_carlo o = true /\
  (exists s, err_margin o = S754_zero s) /\
  (exists s, time_max o = S754_zero s).
Proof.
  unfold infinite_request.
  rewrite !andb_true_iff, !d_eq_zero_iff. tauto.
Qed.

(** C1: a request with Monte Carlo mode, a margin equal to 0 and a time
    limit equal to 0 is rejected: the process exits with [EXIT_FAILURE] after
    a diagnostic, nothing has been asked of the calculator or printed, and
    the diagnostic is the "infinite simulation" report unless an option
    argument was refused before the check.  For every other mode, margin and
    time limit the process does not end with that report.  The request is
    what the options of the command line ask for. *)
Theorem infinite_request_rejected (P : Platform) (argv : list string)
  (hits : list (ascii * string)) (strs : list string) (w : World) :
  getopt_scan P argv = (hits, strs) ->
  let o := request P hits in
  let unbounded :=
    monte_carlo o = true /\
    (exists s, err_margin o = S754_zero s) /\
    (exists s, time_max o = S754_zero s) in
  (unbounded ->
   exists w' r,
     main P argv w = Exited EXIT_FAILURE w' /\
     last (cerr w') "" = diagnostic r /\
     eq_calls w' = eq_calls w /\ cout w' = cout w /\
     (existsb (bad_option P) hits = false -> r = infinite_report)) /\
  (~ unbounded -> ~ fails_with infinite_report (main P argv w)).
Proof.
  intros Hscan o unbounded.
  pose proof (main_run P argv hits strs w Hscan) as H.
  fold o in H. unfold unbounded. rewrite <- infinite_request_iff.
  destruct (existsb (bad_option P) hits).
  { destruct H as (w' & r & Hm & [Hc He] & Hr & Hl). split.
    - intros _. exists w', r. repeat split; auto. discriminate.
    - intros _ (wf & Hf & Hlf). rewrite Hm in Hf. injection Hf as <-.
      apply (option_report_not_infinite r Hr). congruence. }
  destruct (infinite_request o).
  - split; [ | intros Hn; now elim Hn ].
    intros _. destruct H as (w' & Hm & [Hc He] & Hl).
    exists w', infinite_report. auto.
  - split; [ discriminate | ]. intros _ (wf & Hf & Hl).
    destruct (Nat.ltb (List.length strs) 2 || Nat.ltb 10 (List.length strs)
              || existsb (empty_range P) strs).
    + destruct H as (w' & r & Hm & _ & Hr & Hl').
      rewrite Hm in Hf. injection Hf as <-.
      apply (range_report_not_infinite r Hr). congruence.
    + destruct H as (w' & Hm & _).
      pose proof (print_results_run P strs (getResults P (eq_calls w')) w')
        as Hp.
      rewrite Hm in Hf.
      destruct (Nat.eqb (List.length strs)
                  (players (getResults P (eq_calls w')))).
      * destruct Hp as (w2 & Hp & _). congruence.
      * destruct Hp as (w2 & Hp & _). congruence.
Qed.

Lemma infinite_request_rejected_witness :
  let P := Sample.platform Sample.finished in
  let argv := ["term-heval"; "--mc"; "-e"; "0"; "-t"; "0"; "AA"; "KK"] in
  exists w',
    main P argv initial_world = Exited EXIT_FAILURE w' /\
    last (cerr w') "" = diagnostic infinite_report /\
    eq_calls w' = [] /\ cout w' = [].
Proof.
  destruct (proj1 (infinite_request_rejected
                     (Sample.platform Sample.finished)
                     ["term-heval"; "--mc"; "-e"; "0"; "-t"; "0"; "AA"; "KK"]
                     [("m"%char, ""); ("e"%char, "0"); ("t"%char, "0")]
                     ["AA"; "KK"] initial_world eq_refl)
             (conj eq_refl
                (conj (ex_intro _ false eq_refl) (ex_intro _ false eq_refl))))
    as (w' & r & Hm & Hl & He & Hc & Hr).
  rewrite (Hr eq_refl) in Hl. exists w'. repeat split; assumption.
Defined.

(** ** The number of ranges *)

(** C2: [get_ranges_from_argv] ends the process with "less than 2 hand
    ranges" for fewer than 2 range strings and with "more than 10 hand
    ranges" for more than 10; from 2 to 10 of them it gives neither report,
    goes on to the ranges themselves and, when none of them is empty,
    returns them. *)
Theorem range_count_checked (P : Platform) (range_strings : list string)
  (w : World) :
  ((List.length range_strings < 2)%nat ->
     get_ranges_from_argv P range_strings w =
       Exited EXIT_FAILURE (reported "less than 2 hand ranges" w)) /\
  ((10 < List.length range_strings)%nat ->
     get_ranges_from_argv P range_strings w =
       Exited EXIT_FAILURE (reported "more than 10 hand ranges" w)) /\
  ((2 <= List.length range_strings <= 10)%nat ->
     get_ranges_from_argv P range_strings w =
       ranges_loop P range_strings [] w /\
     ~ fails_with "less than 2 hand ranges"
         (get_ranges_from_argv P range_strings w) /\
     ~ fails_with "more than 10 hand ranges"
         (get_ranges_from_argv P range_strings w) /\
     (existsb (empty_range P) range_strings = false ->
        exists w',
          get_ranges_from_argv P range_strings w =
            Ret (map (mkCardRange P) range_strings) w' /\
          same_output w w')).
Proof.
  split; [ | split ].
  - intros H. apply Nat.ltb_lt in H.
    unfold get_ranges_from_argv, bind, when. now rewrite H.
  - intros H. assert (H2 : Nat.ltb (List.length range_strings) 2 = false)
      by (apply Nat.ltb_ge; lia).
    apply Nat.ltb_lt in H.
    unfold get_ranges_from_argv, bind, when. now rewrite H2, H.
  - intros [Hlo Hhi].
    assert (H2 : Nat.ltb (List.length range_strings) 2 = false)
      by (apply Nat.ltb_ge; lia).
    assert (H10 : Nat.ltb 10 (List.length range_strings) = false)
      by (apply Nat.ltb_ge; lia).
    assert (E : get_ranges_from_argv P range_strings w =
                ranges_loop P range_strings [] w).
    { unfold get_ranges_from_argv, bind, when. now rewrite H2, H10. }
    pose proof (ranges_loop_run P range_strings [] w) as R.
    pose proof (validates_ranges_loop P range_strings [] w) as V.
    rewrite E. split; [reflexivity | ].
    destruct (existsb (empty_range P) range_strings) eqn:Ee.
    + destruct R as [w' R]. rewrite R in *.
      assert (Hlast : exists i,
                 last (cerr w') "" = diagnostic ("range " ++ i ++ " invalid")).
      { clear - Ee R. revert w w' R Ee. generalize (@nil CardRange).
        induction range_strings as [ | i strs IH]; intros acc w w' R Ee;
          [discriminate | ].
        cbn [ranges_loop] in R. cbn [existsb] in Ee.
        unfold empty_range at 1 in Ee.
        destruct (combinations (mkCardRange P i)) eqn:Ec.
        - exists i. cbn in R. injection R as <-. apply last_last.
        - cbn [orb] in Ee. unfold bind at 1, when, ret in R.
          destruct (debug_print_eq ("Range added: " ++ i) w) as (w1 & Ed & _).
          rewrite (bind_ret_eq _ _ _ _ _ Ed) in R.
          exact (IH _ _ _ R Ee). }
      destruct Hlast as [i Hi].
      repeat split; try discriminate.
      * intros (wf & Hf & Hl). injection Hf as <-.
        rewrite Hi in Hl. discriminate.
      * intros (wf & Hf & Hl). injection Hf as <-.
        rewrite Hi in Hl. discriminate.
    + destruct R as [w' R]. rewrite R in *.
      repeat split.
      * intros (wf & Hf & _). discriminate.
      * intros (wf & Hf & _). discriminate.
      * intros _. exists w'. split; [reflexivity | exact V].
Qed.

(** ** Board and dead cards *)

(** C10: a board or dead argument whose card mask is 0 is refused as
    invalid, so [get_cardmask] returns non-empty masks only; after the option
    loop the board (the dead set) is non-empty exactly when a board (dead)
    option was given, and is the empty default otherwise. *)
Theorem explicit_mask_is_nonempty (P : Platform) :
  (forall cards w,
      getCardMask P cards = 0 ->
      get_cardmask P cards true w =
        Exited EXIT_FAILURE (reported "invalid board argument" w) /\
      get_cardmask P cards false w =
        Exited EXIT_FAILURE (reported "invalid dead argument" w)) /\
  (forall cards b w m w',
      get_cardmask P cards b w = Ret m w' -> m <> 0) /\
  (forall hits w o w',
      options_loop P hits default_options w = Ret o w' ->
      (board o <> 0 <-> exists s, In ("b"%char, s) hits) /\
      (dead o <> 0 <-> exists s, In ("d"%char, s) hits)).
Proof.
  split; [ | split ].
  - intros cards w H. rewrite !get_cardmask_run.
    apply Z.eqb_eq in H. rewrite H. split; reflexivity.
  - intros cards b w m w' H. rewrite get_cardmask_run in H.
    destruct (getCardMask P cards =? 0) eqn:E; [discriminate | ].
    destruct (b && Nat.ltb 10 (String.length cards)); [discriminate | ].
    injection H as <- _. now apply Z.eqb_neq.
  - intros hits w o w' H.
    apply options_loop_ret in H. destruct H as [Hbad ->].
    destruct (requested_masks P hits default_options Hbad)
      as (Hb1 & Hb0 & Hd1 & Hd0).
    split; split; auto.
    + intros Hne.
      destruct (existsb (fun h => Ascii.eqb (fst h) "b") hits) eqn:E.
      * apply existsb_exists in E. destruct E as ([c s] & Hin & Hc).
        apply Ascii.eqb_eq in Hc. cbn in Hc. subst c. now exists s.
      * exfalso. apply Hne. apply Hb0. intros s Hin.
        assert (T : existsb (fun h => Ascii.eqb (fst h) "b") hits = true)
          by (apply existsb_exists; exists ("b"%char, s); auto).
        congruence.
    + intros Hne.
      destruct (existsb (fun h => Ascii.eqb (fst h) "d") hits) eqn:E.
      * apply existsb_exists in E. destruct E as ([c s] & Hin & Hc).
        apply Ascii.eqb_eq in Hc. cbn in Hc. subst c. now exists s.
      * exfalso. apply Hne. apply Hd0. intros s Hin.
        assert (T : existsb (fun h => Ascii.eqb (fst h) "d") hits = true)
          by (apply existsb_exists; exists ("d"%char, s); auto).
        congruence.
Qed.

Lemma board_reports_differ :
  diagnostic "invalid board argument" <> diagnostic "board has too many cards".
Proof. discriminate. Qed.

(** What [get_cardmask] tests on a board argument: "invalid board argument"
    exactly when its card mask is 0, "board has too many cards" exactly when
    the mask is not 0 and the argument is longer than 10 characters; a
    non-zero mask of an argument of at most 10 characters is returned. *)
Lemma board_argument_checked (P : Platform) (cards : string) (w : World) :
  (fails_with "invalid board argument" (get_cardmask P cards true w) <->
     getCardMask P cards = 0) /\
  (fails_with "board has too many cards" (get_cardmask P cards true w) <->
     getCardMask P cards <> 0 /\ (10 < String.length cards)%nat) /\
  (getCardMask P cards <> 0 -> (String.length cards <= 10)%nat ->
     get_cardmask P cards true w = Ret (getCardMask P cards) w).
Proof.
  rewrite get_cardmask_run. cbn [andb].
  destruct (Z.eqb_spec (getCardMask P cards) 0) as [E | E].
  - split; [ | split ].
    + split; [auto | ]. intros _. eexists. split; [reflexivity | ].
      apply last_last.
    + split; [ | tauto ]. intros (wf & Hf & Hl). injection Hf as <-.
      cbn [cerr reported] in Hl. rewrite last_last in Hl.
      now apply board_reports_differ in Hl.
    + tauto.
  - destruct (Nat.ltb_spec 10 (String.length cards)) as [L | L].
    + split; [ | split ].
      * split; [ | tauto ]. intros (wf & Hf & Hl). injection Hf as <-.
        cbn [cerr reported] in Hl. rewrite last_last in Hl.
        symmetry in Hl. now apply board_reports_differ in Hl.
      * split; [auto | ]. intros _. eexists. split; [reflexivity | ].
        apply last_last.
      * lia.
    + split; [ | split ].
      * split; [ | tauto ]. intros (wf & Hf & _). discriminate.
      * split; [ | lia ]. intros (wf & Hf & _). discriminate.
      * reflexivity.
Qed.



(** ** Empty ranges *)

(** C3, as the code has it: a range string whose range has no combination
    at all ends the process with [EXIT_FAILURE] and a report of the range
    checks, and the calculator has not been called.  The board and the dead
    cards play no part in the test. *)
Theorem empty_range_rejected (P : Platform) (o : Options)
  (range_strs : list string) (s : string) (w : World) :
  In s range_strs ->
  combinations (mkCardRange P s) = [] ->
  exists w' r,
    run_calculator P o range_strs w = Exited EXIT_FAILURE w' /\
    range_report r /\ last (cerr w') "" = diagnostic r /\
    eq_calls w' = eq_calls w /\ engine_started w' = engine_started w.
Proof.
  intros Hin Hempty.
  assert (He : existsb (empty_range P) range_strs = true).
  { apply existsb_exists. exists s. split; [exact Hin | ].
    unfold empty_range. now rewrite Hempty. }
  pose proof (run_calculator_run P o range_strs w) as H.
  rewrite He, orb_true_r in H.
  destruct H as (w' & Hr & [Hc Hq] & r & Hrr & Hl).
  exists w', r. unfold engine_started. rewrite Hq. auto.
Qed.

Lemma empty_range_rejected_witness :
  let P := Sample.platform Sample.finished in
  In "xx" ["AA"; "xx"] /\
  combinations (mkCardRange P "xx") = [] /\
  exists w' r,
    run_calculator P default_options ["AA"; "xx"] initial_world =
      Exited EXIT_FAILURE w' /\
    range_report r /\ last (cerr w') "" = diagnostic r /\
    eq_calls w' = [] /\ engine_started w' = false.
Proof.
  cbv zeta. split; [right; left; reflexivity | ].
  split; [reflexivity | ].
  exact (empty_range_rejected (Sample.platform Sample.finished)
           default_options ["AA"; "xx"] "xx" initial_world
           (or_intror (or_introl eq_refl)) eq_refl).
Defined.

(** Against C3 as the specification words it, with the conflicts removed
    before the test: with the ace of spades on the board, the range "AsKs"
    has no combination left once the conflicts are removed; the driver
    accepts it and the calculator is started. *)
Lemma conflicting_range_reaches_engine :
  let P := Sample.platform Sample.finished in
  let argv := ["term-heval"; "-b"; "As"; "AsKs"; "QdQc"] in
  remove_conflicts (getCardMask P "As") 0 (mkCardRange P "AsKs") = [] /\
  exists w,
    main P argv initial_world = Ret EXIT_SUCCESS w /\
    engine_started w = true.
Proof.
  cbv zeta. split; [reflexivity | ].
  exists (final_world
            (main (Sample.platform Sample.finished)
               ["term-heval"; "-b"; "As"; "AsKs"; "QdQc"] initial_world)).
  split; vm_compute; reflexivity.
Qed.

(** ** Configuration errors *)

(** C5, as the code has it: on a command line with a configuration error
    that the driver tests for (a refused option argument, a non-terminating
    Monte Carlo request, fewer than 2 or more than 10 ranges, a range with
    no combination as it is parsed) [main] writes a diagnostic on [cerr] and
    the process exits with [EXIT_FAILURE]; no call has been made on the
    calculator and nothing is on [cout]. *)
Theorem config_error_stops_before_engine (P : Platform) (argv : list string)
  (w : World) :
  config_error P argv = true ->
  exists w' r,
    main P argv w = Exited EXIT_FAILURE w' /\
    last (cerr w') "" = diagnostic r /\
    eq_calls w' = eq_calls w /\ cout w' = cout w /\
    engine_started w' = engine_started w.
Proof.
  unfold config_error.
  destruct (getopt_scan P argv) as [hits strs] eqn:Hscan.
  pose proof (main_run P argv hits strs w Hscan) as H.
  intros Herr. unfold engine_started.
  destruct (existsb (bad_option P) hits).
  { destruct H as (w' & r & Hm & [Hc He] & _ & Hl).
    exists w', r. rewrite He. auto. }
  destruct (infinite_request (request P hits)).
  { destruct H as (w' & Hm & [Hc He] & Hl).
    exists w', infinite_report. rewrite He. auto. }
  cbn [orb] in Herr. rewrite Herr in H.
  destruct H as (w' & r & Hm & [Hc He] & _ & Hl).
  exists w', r. rewrite He. auto.
Qed.

Lemma config_error_stops_before_engine_witness :
  let P := Sample.platform Sample.finished in
  let argv := ["term-heval"; "-d"; "Zz"; "AA"; "KK"] in
  config_error P argv = true /\
  exists w' r,
    main P argv initial_world = Exited EXIT_FAILURE w' /\
    last (cerr w') "" = diagnostic r /\
    eq_calls w' = [] /\ cout w' = [] /\ engine_started w' = false.
Proof.
  cbv zeta. split; [reflexivity | ].
  exact (config_error_stops_before_engine (Sample.platform Sample.finished)
           ["term-heval"; "-d"; "Zz"; "AA"; "KK"] initial_world eq_refl).
Defined.

(** Against C5 as the specification words it, with a range that is empty
    once the conflicts with the board and dead cards are removed among the
    configuration errors: with the king of spades dead, the range "AsKs" has
    no combination left, yet no diagnostic is written, the calculator is
    started and [main] returns [EXIT_SUCCESS]. *)
Lemma filtered_empty_range_not_rejected :
  let P := Sample.platform Sample.finished in
  let argv := ["term-heval"; "-d"; "Ks"; "AsKs"; "QQ"] in
  remove_conflicts 0 (getCardMask P "Ks") (mkCardRange P "AsKs") = [] /\
  exists w,
    main P argv initial_world = Ret EXIT_SUCCESS w /\
    cerr w = [] /\ engine_started w = true.
Proof.
  cbv zeta. split; [reflexivity | ].
  exists (final_world
            (main (Sample.platform Sample.finished)
               ["term-heval"; "-d"; "Ks"; "AsKs"; "QQ"] initial_world)).
  repeat split; vm_compute; reflexivity.
Qed.

(** Without a configuration error the calculator is started, with the
    request of the command line. *)
Lemma accepted_request_starts_engine (P : Platform) (argv : list string)
  (w : World) :
  config_error P argv = false ->
  let '(hits, strs) := getopt_scan P argv in
  exists w',
    eq_calls w' =
      (eq_calls w ++ calculator_calls P (request P hits) strs)%list /\
    cout w' = cout w /\
    main P argv w = print_results P strs (getResults P (eq_calls w')) w'.
Proof.
  unfold config_error.
  destruct (getopt_scan P argv) as [hits strs] eqn:Hscan.
  pose proof (main_run P argv hits strs w Hscan) as H.
  intros Herr. rewrite <- !orb_assoc in Herr.
  apply orb_false_iff in Herr. destruct Herr as [Hb Herr].
  apply orb_false_iff in Herr. destruct Herr as [Hi Herr].
  rewrite Hb, Hi in H. rewrite !orb_assoc in Herr. rewrite Herr in H.
  destruct H as (w' & Hm & Hc & He). exists w'. auto.
Qed.

(** ** The report *)

Lemma last_app_nonempty {A} (l l' : list A) (d : A) :
  l' <> [] -> last (l ++ l') d = last l' d.
Proof.
  intros Hne. destruct (exists_last Hne) as (l0 & a & ->).
  now rewrite app_assoc, !last_last.
Qed.

Lemma closing_lines_nonempty (P : Platform) (r : Results) :
  closing_lines P r <> [].
Proof. unfold closing_lines. destruct (completed r); discriminate. Qed.

(** What [--mc] does: getopt returns [m] for it, and [m] turns Monte Carlo
    on. *)
Lemma mc_option_enables_monte_carlo (P : Platform) (a : string) (o : Options)
  (w : World) :
  In ("mc", false, "m"%char) long_options /\
  exists o', handle_option P "m" a o w = Ret o' w /\ monte_carlo o' = true.
Proof.
  split; [cbn; auto 6 | ]. eexists. split; reflexivity.
Qed.

(** C6, as the code has it: the line "Consider using monte-carlo with --mc"
    ends the report exactly when the results are incomplete ([progress >= 1]
    is false) and their [enumerateAll] flag is set; the mode of the request
    is not looked at, and the option the line names turns Monte Carlo on. *)
Theorem hint_printed_iff (P : Platform) (range_strs : list string)
  (r : Results) (w w' : World) (st : Z) :
  print_results P range_strs r w = Ret st w' ->
  (last (cout w') "" = hint_line <->
     completed r = false /\ enumerateAll r = true) /\
  hint_line = "Consider using monte-carlo with --mc" /\
  (forall a o w0, exists o',
      handle_option P "m" a o w0 = Ret o' w0 /\ monte_carlo o' = true).
Proof.
  intros Hp. split; [ | split; [reflexivity | ] ].
  - pose proof (print_results_run P range_strs r w) as H.
    destruct (Nat.eqb (List.length range_strs) (players r)).
    + destruct H as (w1 & H & Hc & _). rewrite H in Hp.
      injection Hp as _ <-. rewrite Hc, app_assoc.
      rewrite last_app_nonempty by apply closing_lines_nonempty.
      unfold closing_lines, completed_line, timed_out_line, hint_line.
      destruct (completed r), (enumerateAll r); cbn [last];
        split; try tauto; try discriminate;
        intros [? ?]; discriminate.
    + destruct H as (w1 & H & _). congruence.
  - intros a o w0. apply mc_option_enables_monte_carlo.
Qed.

Lemma hint_printed_iff_witness :
  let P := Sample.platform Sample.out_of_time in
  let r := getResults P (calculator_calls P default_options ["AA"; "KK"]) in
  exists w',
    print_results P ["AA"; "KK"] r initial_world = Ret EXIT_SUCCESS w' /\
    (last (cout w') "" = hint_line <->
       completed r = false /\ enumerateAll r = true).
Proof.
  cbv zeta.
  exists (final_world
            (print_results (Sample.platform Sample.out_of_time) ["AA"; "KK"]
               (getResults (Sample.platform Sample.out_of_time)
                  (calculator_calls (Sample.platform Sample.out_of_time)
                     default_options ["AA"; "KK"]))
               initial_world)).
  split; [vm_compute; reflexivity | ].
  refine (proj1 (hint_printed_iff (Sample.platform Sample.out_of_time)
                   ["AA"; "KK"] _ initial_world _ EXIT_SUCCESS _)).
  vm_compute. reflexivity.
Defined.

(** Against C6 as the specification words it, with the hint tied to a
    Monte Carlo run and to enumeration as the way out: here Monte Carlo was not asked for, the run is
    incomplete with [enumerateAll] set, and the report ends with the hint,
    which names the Monte Carlo option. *)
Lemma hint_without_monte_carlo :
  let P := Sample.platform Sample.out_of_time in
  let argv := ["term-heval"; "AA"; "KK"] in
  monte_carlo (request P (fst (getopt_scan P argv))) = false /\
  exists w,
    main P argv initial_world = Ret EXIT_SUCCESS w /\
    last (cout w) "" = "Consider using monte-carlo with --mc" /\
    exists ranges b d e, In (Start ranges b d false e) (eq_calls w).
Proof.
  cbv zeta. split; [reflexivity | ].
  exists (final_world
            (main (Sample.platform Sample.out_of_time)
               ["term-heval"; "AA"; "KK"] initial_world)).
  split; [vm_compute; reflexivity | ].
  split; [vm_compute; reflexivity | ].
  do 4 eexists. vm_compute. right. left. reflexivity.
Qed.

(** C7, as the code has it: when the command line has no configuration
    error and the results have a progress below 1 for as many players as
    there are ranges, [main] returns [EXIT_SUCCESS] after printing the
    equity table, the "timed out" line and, if [enumerateAll] is set, the
    hint.  With another number of players the assertion stops the run. *)
Theorem timed_out_run_succeeds (P : Platform) (argv : list string)
  (hits : list (ascii * string)) (strs : list string) (w : World) :
  getopt_scan P argv = (hits, strs) ->
  config_error P argv = false ->
  let r := getResults P
             (eq_calls w ++ calculator_calls P (request P hits) strs) in
  players r = List.length strs ->
  d_lt (progress r) d_one = true ->
  exists w',
    main P argv w = Ret EXIT_SUCCESS w' /\
    cout w' =
      (cout w ++ equity_table P strs r
       ++ timed_out_line P r
          :: (if enumerateAll r then [hint_line] else []))%list.
Proof.
  intros Hscan Herr r Hplayers Hprog.
  pose proof (accepted_request_starts_engine P argv w Herr) as H.
  rewrite Hscan in H. destruct H as (w1 & He & Hc & Hm).
  rewrite He in Hm. fold r in Hm.
  pose proof (print_results_run P strs r w1) as Hp.
  rewrite Hplayers, Nat.eqb_refl in Hp.
  destruct Hp as (w' & Hp & Hcw & _).
  exists w'. split; [congruence | ].
  rewrite Hcw, Hc. unfold closing_lines, completed.
  now rewrite (d_lt_not_ge _ _ Hprog).
Qed.

Lemma timed_out_run_succeeds_witness :
  let P := Sample.platform Sample.out_of_time in
  let argv := ["term-heval"; "--mc"; "-t"; "1"; "AA"; "KK"] in
  exists w',
    main P argv initial_world = Ret EXIT_SUCCESS w' /\
    cout w' =
      [ "Equity between 2 players:"; "AA: 0.500000"; "KK: 0.500000";
        "Calculation timed out after 1 seconds: target margin of error not reached.";
        "Consider using monte-carlo with --mc" ].
Proof.
  exact (timed_out_run_succeeds (Sample.platform Sample.out_of_time)
           ["term-heval"; "--mc"; "-t"; "1"; "AA"; "KK"]
           [("m"%char, ""); ("t"%char, "1")] ["AA"; "KK"] initial_world
           eq_refl eq_refl eq_refl eq_refl).
Defined.

(** Against C7 as the specification words it, for every run with a
    progress below 1: the calculator answers with results for no player and
    a progress of 0, as one that has not run; the request has passed every
    check, and the assertion aborts the process with nothing printed. *)
Lemma timed_out_run_aborted :
  let idle :=
    {| players := 0; equity := fun _ => d_zero; progress := d_zero;
       stdev := d_zero; time := d_zero; enumerateAll := false |} in
  let P :=
    {| getopt_scan := Sample.scan_argv; stod := Sample.decimal;
       to_string_double := Sample.fixed; show_double := Sample.shortest;
       round := fun d => d; mkCardRange := Sample.range_of;
       getCardMask := Sample.mask_of; getResults := fun _ => idle |} in
  let argv := ["term-heval"; "AA"; "KK"] in
  config_error P argv = false /\
  d_lt (progress (getResults P (calculator_calls P default_options
                                  ["AA"; "KK"]))) d_one = true /\
  exists w,
    main P argv initial_world = Aborted w /\ cout w = [] /\
    engine_started w = true.
Proof.
  cbv zeta. split; [reflexivity | ]. split; [reflexivity | ].
  eexists. split; [vm_compute; reflexivity | ].
  split; reflexivity.
Qed.

(** C9: when [main] returns, it returns [EXIT_SUCCESS], the results read
    from the calculator have as many players as there are range strings, and
    [cout] holds the header, then for each [i] the [i]-th range string with
    the [i]-th entry of [r.equity], then the closing lines. *)
Theorem equity_lines_follow_arguments (P : Platform) (argv : list string)
  (hits : list (ascii * string)) (strs : list string) (w w' : World)
  (st : Z) :
  getopt_scan P argv = (hits, strs) ->
  main P argv w = Ret st w' ->
  let r := getResults P (eq_calls w') in
  st = EXIT_SUCCESS /\
  players r = List.length strs /\
  cout w' = (cout w ++ equity_table P strs r ++ closing_lines P r)%list /\
  forall i, (i < List.length strs)%nat ->
    nth (List.length (cout w) + 1 + i) (cout w') "" =
      nth i strs "" ++ ": " ++ to_string_double P (equity r i).
Proof.
  intros Hscan Hm r.
  pose proof (main_run P argv hits strs w Hscan) as H.
  destruct (existsb (bad_option P) hits).
  { destruct H as (w1 & r1 & H & _). congruence. }
  destruct (infinite_request (request P hits)).
  { destruct H as (w1 & H & _). congruence. }
  destruct (Nat.ltb (List.length strs) 2 || Nat.ltb 10 (List.length strs)
            || existsb (empty_range P) strs).
  { destruct H as (w1 & r1 & H & _). congruence. }
  destruct H as (w1 & H & Hc & He). rewrite H in Hm.
  pose proof (print_results_run P strs (getResults P (eq_calls w1)) w1) as Hp.
  destruct (Nat.eqb (List.length strs)
              (players (getResults P (eq_calls w1)))) eqn:En.
  - destruct Hp as (w2 & Hp & Hcw & Hew). rewrite Hp in Hm.
    injection Hm as <- <-.
    assert (Hr : r = getResults P (eq_calls w1)).
    { unfold r. now rewrite Hew. }
    rewrite <- Hr in *. apply Nat.eqb_eq in En.
    assert (Hcout : cout w2 =
              (cout w ++ equity_table P strs r ++ closing_lines P r)%list)
      by now rewrite Hcw, Hc.
    repeat split; auto.
    intros i Hi. rewrite Hcout.
    rewrite app_nth2 by lia.
    replace (List.length (cout w) + 1 + i - List.length (cout w))%nat
      with (S i) by lia.
    unfold equity_table. rewrite <- app_comm_cons. cbn [nth].
    rewrite app_nth1 by (rewrite length_map, length_seq; exact Hi).
    rewrite (nth_indep _ "" (equity_line P strs r 0))
      by (rewrite length_map, length_seq; exact Hi).
    rewrite map_nth, seq_nth by exact Hi. reflexivity.
  - destruct Hp as (w2 & Hp & _). congruence.
Qed.

Lemma equity_lines_follow_arguments_witness :
  let P := Sample.platform Sample.finished in
  let argv := ["term-heval"; "AA"; "-d"; "2c"; "KK"] in
  let w' := final_world (main P argv initial_world) in
  players (getResults P (eq_calls w')) = 2%nat /\
  nth 1 (cout w') "" = "AA: 0.500000" /\
  nth 2 (cout w') "" = "KK: 0.500000".
Proof.
  cbv zeta.
  destruct (equity_lines_follow_arguments (Sample.platform Sample.finished)
              ["term-heval"; "AA"; "-d"; "2c"; "KK"]
              [("d"%char, "2c")] ["AA"; "KK"] initial_world
              (final_world
                 (main (Sample.platform Sample.finished)
                    ["term-heval"; "AA"; "-d"; "2c"; "KK"] initial_world))
              EXIT_SUCCESS eq_refl eq_refl)
    as (_ & Hplayers & _ & Hline).
  split; [exact Hplayers | ].
  split; [exact (Hline 0%nat (Nat.lt_0_succ 1))
         | exact (Hline 1%nat (Nat.lt_succ_diag_r 1)) ].
Defined.

(** ** Margin and time limit *)

(** C8, as the code has it: a margin or time-limit argument is refused
    exactly when [std::stod] throws on it, with a report that tells the two
    exceptions apart; every value [stod] converts is stored as it is,
    whatever its sign. *)
Theorem numeric_argument_checked (P : Platform) (optarg : string)
  (o : Options) (w : World) :
  match stod P optarg with
  | StodValue v =>
      handle_option P "e" optarg o w =
        Ret {| board := board o; dead := dead o;
               monte_carlo := monte_carlo o;
               err_margin := v; time_max := time_max o |} w /\
      handle_option P "t" optarg o w =
        Ret {| board := board o; dead := dead o;
               monte_carlo := monte_carlo o;
               err_margin := err_margin o; time_max := v |} w
  | StodOutOfRange =>
      handle_option P "e" optarg o w =
        Exited EXIT_FAILURE (reported "Error margin out of range" w) /\
      handle_option P "t" optarg o w =
        Exited EXIT_FAILURE
          (reported "Maximum time out of range (use -t 0 for no time limit)"
                    w)
  | StodInvalidArgument =>
      handle_option P "e" optarg o w =
        Exited EXIT_FAILURE (reported "Invalid error margin argument" w) /\
      handle_option P "t" optarg o w =
        Exited EXIT_FAILURE (reported "Invalid maximum time argument" w)
  end.
Proof.
  unfold handle_option.
  change (Ascii.eqb "e" "0") with false. change (Ascii.eqb "e" "b") with false.
  change (Ascii.eqb "e" "d") with false. change (Ascii.eqb "e" "m") with false.
  change (Ascii.eqb "e" "e") with true.
  change (Ascii.eqb "t" "0") with false. change (Ascii.eqb "t" "b") with false.
  change (Ascii.eqb "t" "d") with false. change (Ascii.eqb "t" "m") with false.
  change (Ascii.eqb "t" "e") with false. change (Ascii.eqb "t" "t") with true.
  cbv iota. destruct (stod P optarg); split; reflexivity.
Qed.

(** Against C8 as the specification words it, with negative values
    refused: [stod] converts "-1" to -1, a value below 0; the driver stores it as the margin, and the
    calculator is started with it. *)
Lemma negative_margin_accepted :
  let P := Sample.platform Sample.finished in
  let argv := ["term-heval"; "-e"; "-1"; "AA"; "KK"] in
  stod P "-1" = StodValue Sample.minus_one /\
  d_lt Sample.minus_one d_zero = true /\
  err_margin (request P (fst (getopt_scan P argv))) = Sample.minus_one /\
  exists w,
    main P argv initial_world = Ret EXIT_SUCCESS w /\
    exists ranges b d m,
      In (Start ranges b d m Sample.minus_one) (eq_calls w).
Proof.
  cbv zeta. repeat (split; [reflexivity | ]).
  exists (final_world
            (main (Sample.platform Sample.finished)
               ["term-heval"; "-e"; "-1"; "AA"; "KK"] initial_world)).
  split; [vm_compute; reflexivity | ].
  do 4 eexists. vm_compute. right. left. reflexivity.
Qed.

(** ** Further properties of the option loop *)

(** Comparisons of two known characters. *)
Ltac eval_eqb :=
  repeat match goal with
         | |- context [Ascii.eqb ?x ?y] =>
             let v := eval vm_compute in (Ascii.eqb x y) in
             lazymatch v with
             | true => change (Ascii.eqb x y) with true
             | false => change (Ascii.eqb x y) with false
             end
         end.

(** One option, exactly: a refused one ends the process with its report as
    the only line written; an accepted one writes nothing, and only the
    debug option touches the world. *)
Lemma handle_option_exact (P : Platform) (c : ascii) (a : string)
  (o : Options) (w : World) :
  handle_option P c a o w =
    if bad_option P (c, a)
    then Exited EXIT_FAILURE (reported (option_error P (c, a)) w)
    else Ret (requested P o (c, a))
             (if is_debug (c, a) then debugging w else w).
Proof.
  unfold handle_option, bad_option, requested, option_error, is_debug.
  cbn [fst].
  destruct (Ascii.eqb c "0") eqn:E0.
  { apply Ascii.eqb_eq in E0. subst c. eval_eqb. cbv iota. reflexivity. }
  destruct (Ascii.eqb c "b") eqn:Eb.
  { unfold bind. rewrite get_cardmask_run. cbn [andb].
    destruct (getCardMask P a =? 0); cbn [orb]; [reflexivity | ].
    destruct (Nat.ltb 10 (String.length a)); reflexivity. }
  destruct (Ascii.eqb c "d") eqn:Ed.
  { unfold bind. rewrite get_cardmask_run. cbn [andb].
    destruct (getCardMask P a =? 0); reflexivity. }
  destruct (Ascii.eqb c "m") eqn:Em.
  { apply Ascii.eqb_eq in Em. subst c. eval_eqb. reflexivity. }
  destruct (Ascii.eqb c "e") eqn:Ee.
  { cbn [orb]. destruct (stod P a); reflexivity. }
  destruct (Ascii.eqb c "t") eqn:Et.
  { cbn [orb]. destruct (stod P a); reflexivity. }
  reflexivity.
Qed.

Lemma options_loop_exact (P : Platform) (hits : list (ascii * string)) :
  forall (o : Options) (w : World),
    existsb (bad_option P) hits = false ->
    options_loop P hits o w =
      Ret (fold_left (requested P) hits o) (after_options hits w).
Proof.
  induction hits as [ | [c a] hits IH]; intros o w Hbad.
  - reflexivity.
  - cbn [existsb] in Hbad. apply orb_false_iff in Hbad.
    destruct Hbad as [Hb Hbad].
    cbn [options_loop fold_left]. unfold bind.
    rewrite handle_option_exact, Hb. rewrite (IH _ _ Hbad).
    unfold after_options. cbn [existsb].
    destruct (is_debug (c, a)); cbn [orb]; [ | reflexivity ].
    destruct (existsb is_debug hits); reflexivity.
Qed.

Lemma options_loop_app (P : Platform) (l1 l2 : list (ascii * string)) :
  forall (o : Options) (w : World),
    options_loop P (l1 ++ l2) o w =
      bind (options_loop P l1 o) (fun o' => options_loop P l2 o') w.
Proof.
  induction l1 as [ | [c a] l1 IH]; intros o w.
  - reflexivity.
  - rewrite <- app_comm_cons. cbn [options_loop]. unfold bind.
    destruct (handle_option P c a o w) as [o1 w1 | s w1 | w1];
      [ | reflexivity | reflexivity ].
    rewrite IH. reflexivity.
Qed.

Lemma options_loop_first_refused (P : Platform)
  (pre post : list (ascii * string)) (h : ascii * string) (o : Options)
  (w : World) :
  existsb (bad_option P) pre = false ->
  bad_option P h = true ->
  options_loop P (pre ++ h :: post) o w =
    Exited EXIT_FAILURE (reported (option_error P h) (after_options pre w)).
Proof.
  intros Hpre Hh. rewrite options_loop_app.
  rewrite (bind_ret_eq _ _ _ _ _ (options_loop_exact P pre o w Hpre)).
  destruct h as [c a]. cbn [options_loop]. unfold bind.
  now rewrite handle_option_exact, Hh.
Qed.

(** X1: the options are checked in the order getopt returns them and the
    first refused one ends the process with [EXIT_FAILURE]: the last line on
    [cerr] is the report of that option, the options after it are not looked
    at, and [cout] and the calculator are untouched. *)
Theorem first_refused_option_reported (P : Platform) (argv : list string)
  (pre post : list (ascii * string)) (h : ascii * string)
  (strs : list string) (w : World) :
  getopt_scan P argv = ((pre ++ h :: post)%list, strs) ->
  existsb (bad_option P) pre = false ->
  bad_option P h = true ->
  exists w',
    main P argv w = Exited EXIT_FAILURE w' /\
    last (cerr w') "" = diagnostic (option_error P h) /\
    cout w' = cout w /\ eq_calls w' = eq_calls w.
Proof.
  intros Hscan Hpre Hh. unfold main. rewrite Hscan.
  exists (reported (option_error P h) (after_options pre w)).
  split.
  - apply bind_exited_eq. now apply options_loop_first_refused.
  - split; [apply last_last | ].
    unfold after_options. destruct (existsb is_debug pre); split; reflexivity.
Qed.

Lemma first_refused_option_reported_witness :
  let P := Sample.platform Sample.finished in
  let argv := ["term-heval"; "--debug"; "-e"; "abc"; "-b"; "zz"; "AA"] in
  exists w',
    main P argv initial_world = Exited EXIT_FAILURE w' /\
    last (cerr w') "" = "term-heval: error: Invalid error margin argument." /\
    cout w' = [] /\ eq_calls w' = [].
Proof.
  exact (first_refused_option_reported (Sample.platform Sample.finished)
           ["term-heval"; "--debug"; "-e"; "abc"; "-b"; "zz"; "AA"]
           [("0"%char, "")] [("b"%char, "zz")] ("e"%char, "abc") ["AA"]
           initial_world eq_refl eq_refl eq_refl).
Defined.

Lemma bind_same_head {A B} (m m' : M A) (k : A -> M B) (w : World) :
  m w = m' w -> bind m k w = bind m' k w.
Proof. intros E. unfold bind. now rewrite E. Qed.

Lemma handle_option_unhandled (P : Platform) (c : ascii) (a : string)
  (o : Options) (w : World) :
  handled (c, a) = false -> handle_option P c a o w = Ret o w.
Proof.
  unfold handled. cbn [fst existsb]. intros H.
  repeat (apply orb_false_iff in H; destruct H as [? H]).
  unfold handle_option.
  repeat match goal with
         | E : Ascii.eqb c _ = false |- _ => rewrite E; clear E
         end.
  reflexivity.
Qed.

Lemma options_loop_handled (P : Platform) (hits : list (ascii * string)) :
  forall (o : Options) (w : World),
    options_loop P (filter handled hits) o w = options_loop P hits o w.
Proof.
  induction hits as [ | [c a] hits IH]; intros o w; [reflexivity | ].
  cbn [filter]. destruct (handled (c, a)) eqn:E.
  - cbn [options_loop]. unfold bind.
    destruct (handle_option P c a o w); auto.
  - cbn [options_loop]. unfold bind.
    rewrite (handle_option_unhandled P c a o w E). apply IH.
Qed.

Lemma same_result_refl {A} (o : Outcome A) : same_result o o.
Proof.
  destruct o as [a w | s w | w]; cbn; repeat split; reflexivity.
Qed.

(** X2: an option character the [switch] has no body for changes nothing
    of the result.  This is so for [h] (the help option prints no help and
    does not stop the program) and for what getopt returns on an unknown
    option: the run ends the same way as the run of the command line
    without these options, with the same status, the same lines on [cout]
    and the same calls on the calculator. *)
Theorem unhandled_options_ignored (P : Platform) (argv argv' : list string)
  (hits : list (ascii * string)) (strs : list string) (w : World) :
  getopt_scan P argv = (hits, strs) ->
  getopt_scan P argv' = (filter handled hits, strs) ->
  same_result (main P argv w) (main P argv' w).
Proof.
  intros H H'.
  assert (E : main P argv w = main P argv' w).
  { unfold main. rewrite H, H'.
    apply bind_same_head. symmetry. apply options_loop_handled. }
  rewrite E. apply same_result_refl.
Qed.

Lemma unhandled_options_ignored_witness :
  let P := Sample.platform Sample.finished in
  same_result
    (main P ["term-heval"; "--help"; "AA"; "-h"; "KK"] initial_world)
    (main P ["term-heval"; "AA"; "KK"] initial_world).
Proof.
  exact (unhandled_options_ignored (Sample.platform Sample.finished)
           ["term-heval"; "--help"; "AA"; "-h"; "KK"]
           ["term-heval"; "AA"; "KK"]
           [("h"%char, ""); ("h"%char, "")] ["AA"; "KK"] initial_world
           eq_refl eq_refl).
Defined.

(** ** The debug flag *)

Lemma debug_option_accepted (P : Platform) (h : ascii * string) :
  is_debug h = true -> bad_option P h = false.
Proof.
  destruct h as [c a]. unfold is_debug. cbn [fst]. intros E.
  apply Ascii.eqb_eq in E. subst c. reflexivity.
Qed.

Lemma debug_option_requests_nothing (P : Platform) (o : Options)
  (h : ascii * string) :
  is_debug h = true -> requested P o h = o.
Proof.
  destruct h as [c a]. unfold is_debug. cbn [fst]. intros E.
  apply Ascii.eqb_eq in E. subst c. reflexivity.
Qed.

Lemma bad_without_debug (P : Platform) (hits : list (ascii * string)) :
  existsb (bad_option P) (filter (fun h => negb (is_debug h)) hits) =
  existsb (bad_option P) hits.
Proof.
  induction hits as [ | h hits IH]; [reflexivity | ].
  cbn [filter existsb]. destruct (is_debug h) eqn:E; cbn [negb].
  - now rewrite (debug_option_accepted P h E).
  - cbn [existsb]. now rewrite IH.
Qed.

Lemma request_without_debug (P : Platform) (hits : list (ascii * string)) :
  forall o,
    fold_left (requested P) (filter (fun h => negb (is_debug h)) hits) o =
    fold_left (requested P) hits o.
Proof.
  induction hits as [ | h hits IH]; intros o; [reflexivity | ].
  cbn [filter fold_left]. destruct (is_debug h) eqn:E; cbn [negb].
  - now rewrite (debug_option_requests_nothing P o h E).
  - cbn [fold_left]. apply IH.
Qed.

(** The report does not depend on [cerr] or on the flag. *)
Lemma print_results_same_result (P : Platform) (strs : list string)
  (r : Results) (w1 w2 : World) :
  same_output w1 w2 ->
  same_result (print_results P strs r w1) (print_results P strs r w2).
Proof.
  intros [Hc He].
  pose proof (print_results_run P strs r w1) as H1.
  pose proof (print_results_run P strs r w2) as H2.
  destruct (Nat.eqb (List.length strs) (players r)).
  - destruct H1 as (w1' & -> & Hc1 & He1).
    destruct H2 as (w2' & -> & Hc2 & He2).
    cbn. repeat split; congruence.
  - destruct H1 as (w1' & -> & [Hc1 He1]).
    destruct H2 as (w2' & -> & [Hc2 He2]).
    cbn. split; congruence.
Qed.

(** X3: the debug option changes what is written on [cerr] and nothing
    else: with and without it the process ends the same way, with the same
    status, the same lines on [cout] and the same calls on the calculator. *)
Theorem debug_changes_cerr_only (P : Platform) (argv argv' : list string)
  (hits : list (ascii * string)) (strs : list string) (w : World) :
  getopt_scan P argv = (hits, strs) ->
  getopt_scan P argv' = (filter (fun h => negb (is_debug h)) hits, strs) ->
  same_result (main P argv w) (main P argv' w).
Proof.
  intros H H'.
  pose proof (main_run P argv hits strs w H) as R.
  pose proof (main_run P argv' _ strs w H') as R'.
  unfold request in R'.
  rewrite bad_without_debug, request_without_debug in R'.
  fold (request P hits) in R'.
  destruct (existsb (bad_option P) hits).
  { destruct R as (w1 & r1 & -> & [Hc1 He1] & _).
    destruct R' as (w2 & r2 & -> & [Hc2 He2] & _).
    cbn. repeat split; congruence. }
  destruct (infinite_request (request P hits)).
  { destruct R as (w1 & -> & [Hc1 He1] & _).
    destruct R' as (w2 & -> & [Hc2 He2] & _).
    cbn. repeat split; congruence. }
  destruct (Nat.ltb (List.length strs) 2 || Nat.ltb 10 (List.length strs)
            || existsb (empty_range P) strs).
  { destruct R as (w1 & r1 & -> & [Hc1 He1] & _).
    destruct R' as (w2 & r2 & -> & [Hc2 He2] & _).
    cbn. repeat split; congruence. }
  destruct R as (w1 & -> & Hc1 & He1).
  destruct R' as (w2 & -> & Hc2 & He2).
  rewrite He1, He2. apply print_results_same_result.
  split; congruence.
Qed.

Lemma debug_changes_cerr_only_witness :
  let P := Sample.platform Sample.out_of_time in
  same_result
    (main P ["term-heval"; "--debug"; "-b"; "2c"; "AA"; "KK"] initial_world)
    (main P ["term-heval"; "-b"; "2c"; "AA"; "KK"] initial_world).
Proof.
  exact (debug_changes_cerr_only (Sample.platform Sample.out_of_time)
           ["term-heval"; "--debug"; "-b"; "2c"; "AA"; "KK"]
           ["term-heval"; "-b"; "2c"; "AA"; "KK"]
           [("0"%char, ""); ("b"%char, "2c")] ["AA"; "KK"] initial_world
           eq_refl eq_refl).
Defined.

(** ** The ways [main] ends *)

(** [main] in two cases: a configuration error, or the report of the
    results the calculator gives for the request. *)
Lemma main_cases (P : Platform) (argv : list string)
  (hits : list (ascii * string)) (strs : list string) (w : World) :
  getopt_scan P argv = (hits, strs) ->
  if config_error P argv
  then exists w',
      main P argv w = Exited EXIT_FAILURE w' /\ same_output w w'
  else exists w',
      main P argv w = print_results P strs (getResults P (eq_calls w')) w' /\
      cout w' = cout w /\
      eq_calls w' =
        (eq_calls w ++ calculator_calls P (request P hits) strs)%list.
Proof.
  intros Hscan. pose proof (main_run P argv hits strs w Hscan) as H.
  unfold config_error. rewrite Hscan.
  destruct (existsb (bad_option P) hits); cbn [orb].
  { destruct H as (w' & r & Hm & Hs & _). now exists w'. }
  destruct (infinite_request (request P hits)); cbn [orb].
  { destruct H as (w' & Hm & Hs & _). now exists w'. }
  destruct (Nat.ltb (List.length strs) 2 || Nat.ltb 10 (List.length strs)
            || existsb (empty_range P) strs).
  { destruct H as (w' & r & Hm & Hs & _). now exists w'. }
  exact H.
Qed.

(** X5: whatever the command line and however the run ends, the calculator
    is either not touched at all (on a configuration error) or is sent
    exactly [setTimeLimit(time_max)], then [start] with the ranges in the
    order of the command line, the board, the dead cards, the Monte Carlo
    flag and the margin, then [wait] -- also when the assertion stops the
    run afterwards. *)
Theorem calculator_protocol (P : Platform) (argv : list string) (w : World) :
  eq_calls (final_world (main P argv w)) =
    if config_error P argv then eq_calls w
    else (eq_calls w
          ++ calculator_calls P (request P (fst (getopt_scan P argv)))
               (snd (getopt_scan P argv)))%list.
Proof.
  destruct (getopt_scan P argv) as [hits strs] eqn:Hscan. cbn [fst snd].
  pose proof (main_cases P argv hits strs w Hscan) as H.
  destruct (config_error P argv).
  - destruct H as (w' & -> & [_ He]). exact He.
  - destruct H as (w1 & -> & _ & He).
    pose proof (print_results_run P strs (getResults P (eq_calls w1)) w1)
      as Hp.
    destruct (Nat.eqb (List.length strs)
                (players (getResults P (eq_calls w1)))).
    + destruct Hp as (w2 & -> & _ & He2). cbn. congruence.
    + destruct Hp as (w2 & -> & [_ He2]). cbn. congruence.
Qed.

Lemma config_error_false (P : Platform) (argv : list string)
  (hits : list (ascii * string)) (strs : list string) :
  getopt_scan P argv = (hits, strs) ->
  config_error P argv = false ->
  existsb (bad_option P) hits = false /\
  infinite_request (request P hits) = false /\
  (2 <= List.length strs <= 10)%nat /\
  existsb (empty_range P) strs = false.
Proof.
  unfold config_error. intros -> H.
  repeat (apply orb_false_iff in H; destruct H as [H ?]).
  repeat split; auto.
  - apply Nat.ltb_ge. assumption.
  - apply Nat.ltb_ge in H1. lia.
Qed.

(** X6: what [start] is given has passed every check: between 2 and 10
    ranges, each with a combination, and never Monte Carlo together with a
    zero margin and a zero time limit. *)
Theorem start_receives_checked_request (P : Platform) (argv : list string)
  (ranges : list CardRange) (b d : uint64) (flag : bool) (e : double) :
  In (Start ranges b d flag e)
     (eq_calls (final_world (main P argv initial_world))) ->
  (2 <= List.length ranges <= 10)%nat /\
  forallb nonempty_range ranges = true /\
  forall t,
    In (SetTimeLimit t)
       (eq_calls (final_world (main P argv initial_world))) ->
    flag && d_eq e d_zero && d_eq t d_zero = false.
Proof.
  destruct (getopt_scan P argv) as [hits strs] eqn:Hscan.
  pose proof (main_cases P argv hits strs initial_world Hscan) as H.
  destruct (config_error P argv) eqn:Herr.
  { destruct H as (w' & -> & [_ He]). cbn [final_world]. rewrite He.
    intros []. }
  destruct H as (w1 & -> & _ & He).
  change (eq_calls initial_world) with (@nil EqCall) in He.
  rewrite app_nil_l in He.
  assert (Hcalls : eq_calls
                     (final_world
                        (print_results P strs (getResults P (eq_calls w1))
                           w1)) =
                   calculator_calls P (request P hits) strs).
  { pose proof (print_results_run P strs (getResults P (eq_calls w1)) w1)
      as Hp.
    destruct (Nat.eqb (List.length strs)
                (players (getResults P (eq_calls w1)))).
    - destruct Hp as (w2 & -> & _ & He2). cbn. congruence.
    - destruct Hp as (w2 & -> & [_ He2]). cbn. congruence. }
  rewrite Hcalls. clear Hcalls He w1.
  destruct (config_error_false P argv hits strs Hscan Herr)
    as (_ & Hinf & Hlen & Hne).
  cbn [calculator_calls In].
  intros [H | [H | [H | []]]]; try discriminate.
  injection H as <- <- <- <- <-.
  rewrite length_map. split; [exact Hlen | ]. split.
  - rewrite forallb_forall. intros r Hr. apply in_map_iff in Hr.
    destruct Hr as (s & <- & Hs). unfold nonempty_range.
    destruct (combinations (mkCardRange P s)) eqn:Ec; [ | reflexivity].
    assert (T : existsb (empty_range P) strs = true).
    { apply existsb_exists. exists s. split; [exact Hs | ].
      unfold empty_range. now rewrite Ec. }
    congruence.
  - intros t [H | [H | [H | []]]]; try discriminate.
    injection H as <-. exact Hinf.
Qed.

Lemma start_receives_checked_request_witness :
  let P := Sample.platform Sample.finished in
  let ranges := map (mkCardRange P) ["AA"; "KK"] in
  List.length ranges = 2%nat /\ forallb nonempty_range ranges = true.
Proof.
  cbv zeta.
  destruct (start_receives_checked_request
              (Sample.platform Sample.finished)
              ["term-heval"; "--mc"; "-t"; "0"; "AA"; "KK"]
              (map (mkCardRange (Sample.platform Sample.finished))
                 ["AA"; "KK"])
              0 0 true (err_margin default_options)
              (or_intror (or_introl eq_refl)))
    as (_ & Hne & _).
  split; [reflexivity | exact Hne].
Defined.

(** X7: the process exits only with [EXIT_FAILURE], and only on a command
    line with a configuration error: a request that passes the checks never
    ends in [exit]. *)
Theorem exits_only_on_config_error (P : Platform) (argv : list string)
  (w w' : World) (s : Z) :
  main P argv w = Exited s w' ->
  s = EXIT_FAILURE /\ config_error P argv = true.
Proof.
  intros Hm. destruct (getopt_scan P argv) as [hits strs] eqn:Hscan.
  pose proof (main_cases P argv hits strs w Hscan) as H.
  destruct (config_error P argv).
  - destruct H as (w1 & H & _). split; [congruence | reflexivity].
  - destruct H as (w1 & H & _). rewrite H in Hm.
    pose proof (print_results_run P strs (getResults P (eq_calls w1)) w1)
      as Hp.
    destruct (Nat.eqb (List.length strs)
                (players (getResults P (eq_calls w1)))).
    + destruct Hp as (w2 & Hp & _). congruence.
    + destruct Hp as (w2 & Hp & _). congruence.
Qed.

Lemma exits_only_on_config_error_witness :
  let P := Sample.platform Sample.finished in
  config_error P ["term-heval"; "-t"; "1e999"; "AA"; "KK"] = true.
Proof.
  exact (proj2 (exits_only_on_config_error (Sample.platform Sample.finished)
                  ["term-heval"; "-t"; "1e999"; "AA"; "KK"] initial_world
                  (final_world
                     (main (Sample.platform Sample.finished)
                        ["term-heval"; "-t"; "1e999"; "AA"; "KK"]
                        initial_world))
                  EXIT_FAILURE eq_refl)).
Defined.

(** X8: the run is aborted exactly when the request has passed the checks
    and the results do not have as many players as there are range strings
    (the assertion; [range_strs.at(i)] never throws).  The calculator has
    been run by then, and no line of the report is on [cout]. *)
Theorem aborts_iff_player_mismatch (P : Platform) (argv : list string)
  (hits : list (ascii * string)) (strs : list string) (w : World) :
  getopt_scan P argv = (hits, strs) ->
  let r := getResults P
             (eq_calls w ++ calculator_calls P (request P hits) strs) in
  (config_error P argv = false /\ players r <> List.length strs) <->
  exists w',
    main P argv w = Aborted w' /\ cout w' = cout w /\
    eq_calls w' =
      (eq_calls w ++ calculator_calls P (request P hits) strs)%list.
Proof.
  intros Hscan r. pose proof (main_cases P argv hits strs w Hscan) as H.
  destruct (config_error P argv).
  { destruct H as (w1 & H & _). split.
    - intros [? _]. discriminate.
    - intros (w' & Hm & _). congruence. }
  destruct H as (w1 & H & Hc & He). rewrite He in H. fold r in H.
  pose proof (print_results_run P strs r w1) as Hp.
  destruct (Nat.eqb_spec (List.length strs) (players r)) as [En | En].
  - destruct Hp as (w2 & Hp & _). split.
    + intros [_ Hn]. congruence.
    + intros (w' & Hm & _). congruence.
  - destruct Hp as (w2 & Hp & [Hc2 He2]). split.
    + intros _. exists w2. repeat split; congruence.
    + intros _. split; [reflexivity | congruence].
Qed.

Lemma aborts_iff_player_mismatch_witness :
  let P :=
    {| getopt_scan := Sample.scan_argv; stod := Sample.decimal;
       to_string_double := Sample.fixed; show_double := Sample.shortest;
       round := fun d => d; mkCardRange := Sample.range_of;
       getCardMask := Sample.mask_of;
       getResults := fun _ => Sample.finished |} in
  exists w',
    main P ["term-heval"; "AA"; "KK"] initial_world = Aborted w' /\
    cout w' = [].
Proof.
  cbv zeta.
  destruct (proj1 (aborts_iff_player_mismatch
                     {| getopt_scan := Sample.scan_argv;
                        stod := Sample.decimal;
                        to_string_double := Sample.fixed;
                        show_double := Sample.shortest;
                        round := fun d => d;
                        mkCardRange := Sample.range_of;
                        getCardMask := Sample.mask_of;
                        getResults := fun _ => Sample.finished |}
                     ["term-heval"; "AA"; "KK"] [] ["AA"; "KK"]
                     initial_world eq_refl)
             (conj eq_refl (fun E : 0%nat = 2%nat => O_S 1 E)))
    as (w' & Hm & Hc & _).
  exists w'. split; assumption.
Defined.

(** X9: when the request has passed the checks and the results have a
    progress of at least 1 (for as many players as there are ranges),
    [main] prints the equity table, then the "completed" line as the last
    line, and returns [EXIT_SUCCESS]; no hint follows, whatever
    [enumerateAll] is. *)
Theorem completed_run_reported (P : Platform) (argv : list string)
  (hits : list (ascii * string)) (strs : list string) (w : World) :
  getopt_scan P argv = (hits, strs) ->
  config_error P argv = false ->
  let r := getResults P
             (eq_calls w ++ calculator_calls P (request P hits) strs) in
  players r = List.length strs ->
  d_ge (progress r) d_one = true ->
  exists w',
    main P argv w = Ret EXIT_SUCCESS w' /\
    cout w' = (cout w ++ equity_table P strs r ++ [completed_line P r])%list.
Proof.
  intros Hscan Herr r Hplayers Hprog.
  pose proof (main_cases P argv hits strs w Hscan) as H.
  rewrite Herr in H. destruct H as (w1 & Hm & Hc & He).
  rewrite He in Hm. fold r in Hm.
  pose proof (print_results_run P strs r w1) as Hp.
  rewrite Hplayers, Nat.eqb_refl in Hp.
  destruct Hp as (w' & Hp & Hcw & _).
  exists w'. split; [congruence | ].
  rewrite Hcw, Hc. unfold closing_lines, completed. now rewrite Hprog.
Qed.

Lemma completed_run_reported_witness :
  let P := Sample.platform Sample.finished in
  exists w',
    main P ["term-heval"; "AsKs"; "QdQc"] initial_world =
      Ret EXIT_SUCCESS w' /\
    cout w' =
      [ "Equity between 2 players:"; "AsKs: 0.500000"; "QdQc: 0.500000";
        "Calculation completed in 1 seconds." ].
Proof.
  cbv zeta.
  destruct (completed_run_reported (Sample.platform Sample.finished)
              ["term-heval"; "AsKs"; "QdQc"] [] ["AsKs"; "QdQc"]
              initial_world eq_refl eq_refl eq_refl eq_refl)
    as (w' & Hm & Hc).
  exists w'. split; assumption.
Defined.

(** ** Further properties of the range and card checks *)

Lemma debug_print_run (s : string) (w : World) :
  debug_print s w = Ret tt (if debug w then logged [s] w else w).
Proof. unfold debug_print. destruct (debug w); reflexivity. Qed.

Lemma logged_logged (l1 l2 : list string) (w : World) :
  logged l2 (logged l1 w) = logged (l1 ++ l2) w.
Proof. unfold logged. cbn. now rewrite app_assoc. Qed.

(** The loop up to the first empty range: with the flag set, one line for
    each range before it, then the report. *)
Lemma ranges_loop_first_empty (P : Platform) (pre post : list string)
  (s : string) :
  existsb (empty_range P) pre = false ->
  empty_range P s = true ->
  forall (ranges : list CardRange) (w : World),
    ranges_loop P (pre ++ s :: post) ranges w =
      Exited EXIT_FAILURE
        (reported ("range " ++ s ++ " invalid")
           (if debug w
            then logged (map (fun x => "Range added: " ++ x) pre) w
            else w)).
Proof.
  intros Hpre Hs. induction pre as [ | i pre IH]; intros ranges w.
  - rewrite app_nil_l. cbn [ranges_loop map]. unfold empty_range in Hs.
    destruct (combinations (mkCardRange P s)); [ | discriminate].
    unfold bind, when. cbv beta iota. rewrite fail_prog_run.
    destruct (debug w); [ | reflexivity].
    unfold reported, logged. cbn. now rewrite app_nil_r.
  - cbn [existsb] in Hpre. apply orb_false_iff in Hpre.
    destruct Hpre as [Hi Hpre]. rewrite <- app_comm_cons.
    cbn [ranges_loop map]. unfold empty_range in Hi.
    destruct (combinations (mkCardRange P i)); [discriminate | ].
    unfold bind at 1, when, ret. unfold bind at 1.
    rewrite debug_print_run. rewrite (IH Hpre).
    destruct (debug w) eqn:Hd; [ | now rewrite Hd].
    cbn [debug logged]. rewrite Hd. now rewrite logged_logged.
Qed.

(** X10: with 2 to 10 range strings, the ranges are built in order and the
    first empty one ends the process with "range ... invalid" naming it; the
    strings after it are not looked at.  On [cerr] there is then, with the
    debug flag set, one "Range added" line for each range before it, and
    the diagnostic. *)
Theorem first_empty_range_reported (P : Platform) (pre post : list string)
  (s : string) (w : World) :
  (2 <= List.length (pre ++ s :: post) <= 10)%nat ->
  existsb (empty_range P) pre = false ->
  empty_range P s = true ->
  get_ranges_from_argv P (pre ++ s :: post) w =
    Exited EXIT_FAILURE
      (reported ("range " ++ s ++ " invalid")
         (if debug w
          then logged (map (fun x => "Range added: " ++ x) pre) w
          else w)).
Proof.
  intros [Hlo Hhi] Hpre Hs. unfold get_ranges_from_argv, bind, when.
  assert (H2 : Nat.ltb (List.length (pre ++ s :: post)) 2 = false)
    by (apply Nat.ltb_ge; lia).
  assert (H10 : Nat.ltb 10 (List.length (pre ++ s :: post)) = false)
    by (apply Nat.ltb_ge; lia).
  rewrite H2, H10. cbv beta iota.
  now apply ranges_loop_first_empty.
Qed.

Lemma first_empty_range_reported_witness :
  let P := Sample.platform Sample.finished in
  get_ranges_from_argv P ["AA"; "KK"; "A"; ""; "QQ"] (debugging initial_world)
  = Exited EXIT_FAILURE
      {| debug := true; cout := [];
         cerr := [ "Range added: AA"; "Range added: KK";
                   "term-heval: error: range A invalid." ];
         eq_calls := [] |}.
Proof.
  exact (first_empty_range_reported (Sample.platform Sample.finished)
           ["AA"; "KK"] [""; "QQ"] "A" (debugging initial_world)
           (conj (le_S _ _ (le_S _ _ (le_S _ _ (le_n 2))))
                 (le_S _ _ (le_S _ _ (le_S _ _ (le_S _ _ (le_S _ _ (le_n 5)))))))
           eq_refl eq_refl).
Defined.

(** X11: the dead cards have no card maximum.  A dead argument is refused
    exactly when its mask is 0, whatever its length, and every argument
    accepted as a board is accepted as dead cards with the same mask. *)
Theorem dead_has_no_card_maximum (P : Platform) (cards : string) (w : World) :
  (getCardMask P cards = 0 ->
     get_cardmask P cards false w =
       Exited EXIT_FAILURE (reported "invalid dead argument" w)) /\
  (getCardMask P cards <> 0 ->
     get_cardmask P cards false w = Ret (getCardMask P cards) w) /\
  (forall m w',
     get_cardmask P cards true w = Ret m w' ->
     get_cardmask P cards false w = Ret m w').
Proof.
  rewrite !get_cardmask_run. cbn [andb].
  destruct (Z.eqb_spec (getCardMask P cards) 0) as [E | E].
  - repeat split; try tauto. intros m w' H. discriminate.
  - repeat split; try tauto. intros m w' H.
    destruct (Nat.ltb 10 (String.length cards)); [discriminate | exact H].
Qed.

(** ** Which option sets what *)

Lemma requested_monte_carlo (P : Platform) (o : Options) (c : ascii)
  (a : string) :
  monte_carlo (requested P o (c, a)) = Ascii.eqb c "m" || monte_carlo o.
Proof.
  unfold requested.
  destruct (Ascii.eqb_spec c "b") as [-> | _]; [reflexivity | ].
  destruct (Ascii.eqb_spec c "d") as [-> | _]; [reflexivity | ].
  destruct (Ascii.eqb_spec c "m") as [-> | _]; [reflexivity | ].
  destruct (Ascii.eqb c "e"), (Ascii.eqb c "t"), (stod P a); reflexivity.
Qed.

Lemma requested_err_margin (P : Platform) (o : Options) (c : ascii)
  (a : string) :
  err_margin (requested P o (c, a)) =
    if Ascii.eqb c "e" then
      match stod P a with StodValue v => v | _ => err_margin o end
    else err_margin o.
Proof.
  unfold requested.
  destruct (Ascii.eqb_spec c "b") as [-> | _]; [reflexivity | ].
  destruct (Ascii.eqb_spec c "d") as [-> | _]; [reflexivity | ].
  destruct (Ascii.eqb_spec c "m") as [-> | _]; [reflexivity | ].
  destruct (Ascii.eqb c "e"), (Ascii.eqb c "t"), (stod P a); reflexivity.
Qed.

Lemma requested_time_max (P : Platform) (o : Options) (c : ascii)
  (a : string) :
  time_max (requested P o (c, a)) =
    if Ascii.eqb c "t" then
      match stod P a with StodValue v => v | _ => time_max o end
    else time_max o.
Proof.
  unfold requested.
  destruct (Ascii.eqb_spec c "b") as [-> | _]; [reflexivity | ].
  destruct (Ascii.eqb_spec c "d") as [-> | _]; [reflexivity | ].
  destruct (Ascii.eqb_spec c "m") as [-> | _]; [reflexivity | ].
  destruct (Ascii.eqb_spec c "e") as [-> | _];
    [destruct (stod P a); reflexivity | ].
  destruct (Ascii.eqb c "t"), (stod P a); reflexivity.
Qed.

(** A variable that only the option [c] sets keeps its value through
    options among which [c] does not occur. *)
Lemma request_keeps {X} (P : Platform) (f : Options -> X) (c : ascii) :
  (forall o c' a, c' <> c -> f (requested P o (c', a)) = f o) ->
  forall hits o,
    (forall a, ~ In (c, a) hits) ->
    f (fold_left (requested P) hits o) = f o.
Proof.
  intros Hf hits. induction hits as [ | [c' a'] hits IH]; intros o Hno.
  - reflexivity.
  - cbn [fold_left]. rewrite IH.
    + apply Hf. intros ->. apply (Hno a'). now left.
    + intros a Ha. apply (Hno a). now right.
Qed.

Lemma option_occurs_dec (c : ascii) (hits : list (ascii * string)) :
  (exists a, In (c, a) hits) \/ (forall a, ~ In (c, a) hits).
Proof.
  destruct (existsb (fun h => Ascii.eqb (fst h) c) hits) eqn:E.
  - left. apply existsb_exists in E. destruct E as ([c' a] & Hin & Hc).
    apply Ascii.eqb_eq in Hc. cbn in Hc. subst c'. now exists a.
  - right. intros a Hin.
    assert (T : existsb (fun h => Ascii.eqb (fst h) c) hits = true).
    { apply existsb_exists. exists (c, a). split; [exact Hin | ].
      apply Ascii.eqb_refl. }
    congruence.
Qed.

Lemma keeps_board (P : Platform) (o : Options) (c : ascii) (a : string) :
  c <> "b"%char -> board (requested P o (c, a)) = board o.
Proof.
  intros H. rewrite requested_board.
  now destruct (Ascii.eqb_spec c "b").
Qed.

Lemma keeps_dead (P : Platform) (o : Options) (c : ascii) (a : string) :
  c <> "d"%char -> dead (requested P o (c, a)) = dead o.
Proof.
  intros H. rewrite requested_dead.
  now destruct (Ascii.eqb_spec c "d").
Qed.

Lemma keeps_monte_carlo (P : Platform) (o : Options) (c : ascii)
  (a : string) :
  c <> "m"%char -> monte_carlo (requested P o (c, a)) = monte_carlo o.
Proof.
  intros H. rewrite requested_monte_carlo.
  now destruct (Ascii.eqb_spec c "m").
Qed.

Lemma keeps_err_margin (P : Platform) (o : Options) (c : ascii)
  (a : string) :
  c <> "e"%char -> err_margin (requested P o (c, a)) = err_margin o.
Proof.
  intros H. rewrite requested_err_margin.
  now destruct (Ascii.eqb_spec c "e").
Qed.

Lemma keeps_time_max (P : Platform) (o : Options) (c : ascii) (a : string) :
  c <> "t"%char -> time_max (requested P o (c, a)) = time_max o.
Proof.
  intros H. rewrite requested_time_max.
  now destruct (Ascii.eqb_spec c "t").
Qed.

(** X12: when an option is given several times, the last one counts: the
    board and the dead cards are replaced, not added to, and the margin and
    the time limit are those of the last [e] and [t] option. *)
Theorem last_option_wins (P : Platform) (pre post : list (ascii * string))
  (c : ascii) (a : string) (o o' : Options) (w w' : World) :
  options_loop P (pre ++ (c, a) :: post) o w = Ret o' w' ->
  (forall a', ~ In (c, a') post) ->
  (c = "b"%char -> board o' = getCardMask P a) /\
  (c = "d"%char -> dead o' = getCardMask P a) /\
  (c = "e"%char -> stod P a = StodValue (err_margin o')) /\
  (c = "t"%char -> stod P a = StodValue (time_max o')).
Proof.
  intros Hrun Hno. apply options_loop_ret in Hrun.
  destruct Hrun as [Hbad ->].
  rewrite existsb_app in Hbad. apply orb_false_iff in Hbad.
  destruct Hbad as [_ Hbad]. cbn [existsb] in Hbad.
  apply orb_false_iff in Hbad. destruct Hbad as [Hc _].
  rewrite fold_left_app. cbn [fold_left].
  repeat split; intros ->.
  - rewrite (request_keeps P board "b" (keeps_board P) post _ Hno).
    now rewrite requested_board.
  - rewrite (request_keeps P dead "d" (keeps_dead P) post _ Hno).
    now rewrite requested_dead.
  - rewrite (request_keeps P err_margin "e" (keeps_err_margin P) post _ Hno).
    rewrite requested_err_margin. cbn in Hc |- *.
    destruct (stod P a); [reflexivity | discriminate | discriminate].
  - rewrite (request_keeps P time_max "t" (keeps_time_max P) post _ Hno).
    rewrite requested_time_max. cbn in Hc |- *.
    destruct (stod P a); [reflexivity | discriminate | discriminate].
Qed.

Lemma last_option_wins_witness :
  let P := Sample.platform Sample.finished in
  let hits := [("e"%char, "0"); ("b"%char, "As"); ("e"%char, "0.5");
               ("b"%char, "2c"); ("m"%char, "")] in
  board (request P hits) = getCardMask P "2c" /\
  stod P "0.5" = StodValue (err_margin (request P hits)).
Proof.
  cbv zeta.
  pose (P := Sample.platform Sample.finished).
  pose (hits := [("e"%char, "0"); ("b"%char, "As"); ("e"%char, "0.5");
                 ("b"%char, "2c"); ("m"%char, "")]).
  split.
  - refine (proj1 (last_option_wins P
                     [("e"%char, "0"); ("b"%char, "As"); ("e"%char, "0.5")]
                     [("m"%char, "")] "b" "2c" default_options
                     (request P hits) initial_world initial_world
                     eq_refl _) eq_refl).
    intros a' [H | []]. discriminate.
  - refine (proj1 (proj2 (proj2 (last_option_wins P
                     [("e"%char, "0"); ("b"%char, "As")]
                     [("b"%char, "2c"); ("m"%char, "")] "e" "0.5"
                     default_options (request P hits) initial_world
                     initial_world eq_refl _))) eq_refl).
    intros a' [H | [H | []]]; discriminate.
Defined.

(** The "infinite simulation" report comes from the non-termination check
    only. *)
Lemma infinite_report_from_check (P : Platform) (argv : list string)
  (hits : list (ascii * string)) (strs : list string) (w : World) :
  getopt_scan P argv = (hits, strs) ->
  fails_with infinite_report (main P argv w) ->
  infinite_request (request P hits) = true.
Proof.
  intros Hscan (wf & Hf & Hl).
  pose proof (main_run P argv hits strs w Hscan) as H.
  destruct (existsb (bad_option P) hits).
  { destruct H as (w' & r & Hm & _ & Hr & Hl'). rewrite Hm in Hf.
    injection Hf as <-. exfalso.
    apply (option_report_not_infinite r Hr). congruence. }
  destruct (infinite_request (request P hits)); [reflexivity | ].
  destruct (Nat.ltb (List.length strs) 2 || Nat.ltb 10 (List.length strs)
            || existsb (empty_range P) strs).
  { destruct H as (w' & r & Hm & _ & Hr & Hl'). rewrite Hm in Hf.
    injection Hf as <-. exfalso.
    apply (range_report_not_infinite r Hr). congruence. }
  destruct H as (w' & Hm & _). rewrite Hm in Hf.
  pose proof (print_results_run P strs (getResults P (eq_calls w')) w') as Hp.
  destruct (Nat.eqb (List.length strs)
              (players (getResults P (eq_calls w')))).
  - destruct Hp as (w2 & Hp & _). congruence.
  - destruct Hp as (w2 & Hp & _). congruence.
Qed.

(** X13: the defaults keep a run finite.  The "infinite simulation"
    rejection is only given to a command line that has all three of the
    Monte Carlo option, a margin option and a time option: the default
    margin and the default time limit are not zero, and Monte Carlo is off
    by default. *)
Theorem infinite_rejection_needs_three_options (P : Platform)
  (argv : list string) (hits : list (ascii * string)) (strs : list string)
  (w : World) :
  getopt_scan P argv = (hits, strs) ->
  fails_with infinite_report (main P argv w) ->
  (exists a, In ("m"%char, a) hits) /\
  (exists a, In ("e"%char, a) hits) /\
  (exists a, In ("t"%char, a) hits).
Proof.
  intros Hscan Hf.
  pose proof (infinite_report_from_check P argv hits strs w Hscan Hf) as Hi.
  unfold infinite_request, request in Hi.
  apply andb_true_iff in Hi. destruct Hi as [Hi Ht].
  apply andb_true_iff in Hi. destruct Hi as [Hm He].
  split; [ | split ].
  - destruct (option_occurs_dec "m" hits) as [H | H]; [exact H | ].
    rewrite (request_keeps P monte_carlo "m" (keeps_monte_carlo P) hits _ H)
      in Hm.
    discriminate.
  - destruct (option_occurs_dec "e" hits) as [H | H]; [exact H | ].
    rewrite (request_keeps P err_margin "e" (keeps_err_margin P) hits _ H)
      in He.
    discriminate.
  - destruct (option_occurs_dec "t" hits) as [H | H]; [exact H | ].
    rewrite (request_keeps P time_max "t" (keeps_time_max P) hits _ H)
      in Ht.
    discriminate.
Qed.

Lemma infinite_rejection_needs_three_options_witness :
  let hits := [("t"%char, "0"); ("m"%char, ""); ("e"%char, "0")] in
  (exists a, In ("m"%char, a) hits) /\
  (exists a, In ("e"%char, a) hits) /\
  (exists a, In ("t"%char, a) hits).
Proof.
  refine (infinite_rejection_needs_three_options
            (Sample.platform Sample.finished)
            ["term-heval"; "-t"; "0"; "--mc"; "AA"; "-e"; "0"; "KK"]
            [("t"%char, "0"); ("m"%char, ""); ("e"%char, "0")]
            ["AA"; "KK"] initial_world eq_refl _).
  exists (final_world
            (main (Sample.platform Sample.finished)
               ["term-heval"; "-t"; "0"; "--mc"; "AA"; "-e"; "0"; "KK"]
               initial_world)).
  split; reflexivity.
Defined.

(** X14: an option variable changes only through its own option.  When the
    option loop returns, Monte Carlo is on exactly when the [m] option was
    given (nothing turns it off), and without an [e] (a [t]) option the
    margin is the double nearest to 1/1000 (the time limit is 30). *)
Theorem defaults_without_options (P : Platform)
  (hits : list (ascii * string)) (o : Options) (w w' : World) :
  options_loop P hits default_options w = Ret o w' ->
  (monte_carlo o = true <-> exists a, In ("m"%char, a) hits) /\
  ((forall a, ~ In ("e"%char, a) hits) ->
     err_margin o = d_div (d_of_Z 1) (d_of_Z 1000)) /\
  ((forall a, ~ In ("t"%char, a) hits) -> time_max o = d_of_Z 30).
Proof.
  intros Hrun. apply options_loop_ret in Hrun. destruct Hrun as [_ ->].
  split; [ | split ].
  - split.
    + intros Hm. destruct (option_occurs_dec "m" hits) as [H | H];
        [exact H | ].
      rewrite (request_keeps P monte_carlo "m" (keeps_monte_carlo P) hits _ H)
        in Hm.
      discriminate.
    + intros [a Ha]. revert Ha. generalize default_options.
      induction hits as [ | [c' a'] hits IH]; intros o0 Ha; [destruct Ha | ].
      cbn [fold_left]. destruct Ha as [Ha | Ha].
      * injection Ha as -> ->.
        assert (Hkeep : forall l o1, monte_carlo o1 = true ->
                   monte_carlo (fold_left (requested P) l o1) = true).
        { induction l as [ | [c1 a1] l IHl]; intros o1 H1; [exact H1 | ].
          cbn [fold_left]. apply IHl. rewrite requested_monte_carlo, H1.
          apply orb_true_r. }
        apply Hkeep. reflexivity.
      * now apply IH.
  - intros H.
    now rewrite (request_keeps P err_margin "e" (keeps_err_margin P) hits _ H).
  - intros H.
    now rewrite (request_keeps P time_max "t" (keeps_time_max P) hits _ H).
Qed.

Lemma defaults_without_options_witness :
  let P := Sample.platform Sample.finished in
  let o := request P [("b"%char, "As"); ("0"%char, "")] in
  (monte_carlo o = true <-> exists a, In ("m"%char, a)
                                        [("b"%char, "As"); ("0"%char, "")]) /\
  time_max o = d_of_Z 30.
Proof.
  cbv zeta.
  destruct (defaults_without_options (Sample.platform Sample.finished)
              [("b"%char, "As"); ("0"%char, "")]
              (request (Sample.platform Sample.finished)
                 [("b"%char, "As"); ("0"%char, "")])
              initial_world (debugging initial_world) eq_refl)
    as (Hm & _ & Ht).
  split; [exact Hm | ]. apply Ht.
  intros a [H | [H | []]]; discriminate.
Defined.
